(** * 2D aerofoil transformations: a shallow embedding of [airfoil.py] and of
    the slider set-up of [plot.py].

    Numbers.  A Python [float] is modelled by a real number: the arithmetic
    is exact; rounding, overflow and the infinities are not modelled.  The
    only non-finite value kept is the [NaN] that pandas returns for the mean
    of a column without values, so a table cell is either a real number or
    [NaN].  What is proved about the coordinates a transform returns is
    therefore proved of the formulas the code applies, over exact arithmetic;
    the code's binary64 results agree with them up to rounding.  Where the
    last bits decide whether a statement holds of the code, module
    [Binary64] reads the same lines with IEEE binary64 numbers.

    Objects.  A DataFrame is a mutable object: [df.copy()] allocates a new
    one and [result_df[c] = v] updates it in place.  The transforms are
    therefore written in a small state-and-exception monad over a store of
    DataFrames addressed by references. *)

From Stdlib Require Import Reals Lra.
From Stdlib Require Numbers.Cyclic.Int63.Uint63.
From Stdlib Require Import Floats.PrimFloat.
From stdpp Require Import gmap strings list fin_maps.

Open Scope R_scope.
Open Scope string_scope.

(** ** Cells, columns and tables *)

Inductive float64 : Type :=
| Fin (r : R)
| NaN.

Definition fadd (a b : float64) : float64 :=
  match a, b with
  | Fin x, Fin y => Fin (x + y)
  | _, _ => NaN
  end.

Definition fsub (a b : float64) : float64 :=
  match a, b with
  | Fin x, Fin y => Fin (x - y)
  | _, _ => NaN
  end.

Definition fmul (a b : float64) : float64 :=
  match a, b with
  | Fin x, Fin y => Fin (x * y)
  | _, _ => NaN
  end.

(** A pandas Series of floats, a DataFrame (column name to column), a
    reference to a DataFrame object and the store of those objects. *)
Abbreviation Series := (list float64).
Abbreviation DataFrame := (gmap string (list float64)).
Abbreviation ref := positive.
Abbreviation heap := (gmap positive (gmap string (list float64))).

(** ** Python computations: state and exceptions *)

Inductive exn : Type :=
| KeyError (key : string).

Inductive outcome (A : Type) : Type :=
| Return (a : A) (h : heap)
| Raise (e : exn) (h : heap).
Arguments Return {A} a h.
Arguments Raise {A} e h.

Definition py (A : Type) : Type := heap -> outcome A.

#[global] Instance py_ret : MRet py := fun A a h => Return a h.

#[global] Instance py_bind : MBind py := fun A B f m h =>
  match m h with
  | Return a h' => f a h'
  | Raise e h' => Raise e h'
  end.

(** [df.copy()]: a new object with the same columns.  A reference held by
    the program always points into the store; [!!!] reads it. *)
Definition DataFrame_copy (df : ref) : py ref := fun h =>
  let r := fresh (dom h) in
  Return r (<[r := h !!! df]> h).

(** [df[col]]: the column, [KeyError] when the table has no such column. *)
Definition getitem (df : ref) (col : string) : py Series := fun h =>
  match (h !!! df : DataFrame) !! col with
  | Some s => Return s h
  | None => Raise (KeyError col) h
  end.

(** [df[col] = s]: adds the column, or replaces it, in the object itself.
    (pandas refuses a column whose length differs from the table's; the
    transforms only assign columns computed row by row from the table's own
    columns.) *)
Definition setitem (df : ref) (col : string) (s : Series) : py unit := fun h =>
  Return tt (<[df := <[col := s]> (h !!! df : DataFrame)]> h).

(** ** pandas and numpy operations used by the transforms *)

Fixpoint Rsum (l : list R) : R :=
  match l with
  | [] => 0
  | x :: l' => x + Rsum l'
  end.

(** The values of a column that are not [NaN]. *)
Fixpoint dropna (s : Series) : list R :=
  match s with
  | [] => []
  | Fin x :: s' => x :: dropna s'
  | NaN :: s' => dropna s'
  end.

(** [Series.mean()]: [NaN] values are skipped, and the mean of no value at
    all is [NaN]. *)
Definition mean (s : Series) : float64 :=
  match dropna s with
  | [] => NaN
  | v :: vs => Fin (Rsum (v :: vs) / INR (length (v :: vs)))
  end.

(** Series-with-scalar arithmetic, element by element. *)
Definition Series_sub (s : Series) (c : float64) : Series :=
  map (fun x => fsub x c) s.

Definition Series_mul (s : Series) (c : float64) : Series :=
  map (fun x => fmul x c) s.

Definition Series_add (s : Series) (c : float64) : Series :=
  map (fun x => fadd x c) s.

(** [c + s] with the scalar on the left. *)
Definition Series_radd (c : float64) (s : Series) : Series :=
  map (fun x => fadd c x) s.

(** An n-by-2 array is the list of its rows, a 2-by-2 array a pair of rows. *)
Abbreviation row := (float64 * float64)%type.
Abbreviation matrix := ((float64 * float64) * (float64 * float64))%type.

(** [np.column_stack((a, b))] for two columns of one table, which have the
    same length. *)
Definition column_stack (a b : Series) : list row := combine a b.

(** [m.T] *)
Definition T (m : matrix) : matrix :=
  let '((a, b), (c, d)) := m in ((a, c), (b, d)).

(** [np.dot(coords, m)]: row [i], column [j] is
    [coords[i,0] * m[0,j] + coords[i,1] * m[1,j]]. *)
Definition dot (coords : list row) (m : matrix) : list row :=
  let '((m00, m01), (m10, m11)) := m in
  map (fun p : row =>
         (fadd (fmul (fst p) m00) (fmul (snd p) m10),
          fadd (fmul (fst p) m01) (fmul (snd p) m11))) coords.

(** [a[:, 0]] and [a[:, 1]] *)
Definition col0 (a : list row) : Series := map fst a.
Definition col1 (a : list row) : Series := map snd a.

(** [math.radians] *)
Definition radians (x : R) : R := x * (PI / 180).

(** ** airfoil.py *)

Definition rotation_matrix (angle_rad : R) : matrix :=
  ((Fin (cos angle_rad), Fin (- sin angle_rad)),
   (Fin (sin angle_rad), Fin (cos angle_rad))).

Definition twist_airfoil_ledge (df : ref) (angle_degrees : R) : py ref :=
  result_df ← DataFrame_copy df;
  let angle_rad := radians angle_degrees in
  let rotation_matrix := rotation_matrix angle_rad in
  X ← getitem result_df "X";
  Y ← getitem result_df "Y";
  let coords := column_stack X Y in
  let rotated_coords := dot coords (T rotation_matrix) in
  setitem result_df "X_twisted" (col0 rotated_coords);;
  setitem result_df "Y_twisted" (col1 rotated_coords);;
  mret result_df.

Definition twist_airfoil_centroid (df : ref) (angle_degrees : R) : py ref :=
  result_df ← DataFrame_copy df;
  X ← getitem result_df "X";
  let centroid_x := mean X in
  Y ← getitem result_df "Y";
  let centroid_y := mean Y in
  let angle_rad := radians angle_degrees in
  let rotation_matrix := rotation_matrix angle_rad in
  X ← getitem result_df "X";
  Y ← getitem result_df "Y";
  let coords := column_stack (Series_sub X centroid_x) (Series_sub Y centroid_y) in
  let rotated_coords := dot coords (T rotation_matrix) in
  setitem result_df "X_twisted" (Series_add (col0 rotated_coords) centroid_x);;
  setitem result_df "Y_twisted" (Series_add (col1 rotated_coords) centroid_y);;
  mret result_df.

Definition scale_airfoil (df : ref) (scale_factor : R) : py ref :=
  result_df ← DataFrame_copy df;
  X ← getitem result_df "X";
  let centroid_x := mean X in
  Y ← getitem result_df "Y";
  let centroid_y := mean Y in
  X ← getitem result_df "X";
  setitem result_df "X_scaled"
    (Series_radd centroid_x (Series_mul (Series_sub X centroid_x) (Fin scale_factor)));;
  Y ← getitem result_df "Y";
  setitem result_df "Y_scaled"
    (Series_radd centroid_y (Series_mul (Series_sub Y centroid_y) (Fin scale_factor)));;
  mret result_df.

(** ** The arithmetic of [scale_airfoil] in binary64

    Where the last bits decide, the same lines of [scale_airfoil] are
    read with IEEE binary64 numbers, on the columns alone. *)

Module Binary64.

Abbreviation float := PrimFloat.float.

(** [Series.mean()] on a short column: the cells that are not [NaN] are
    added from left to right (numpy does so for fewer than 8 summands) and
    the sum is divided by their number. *)
Definition dropna (s : list float) : list float :=
  filter (fun x => negb (PrimFloat.is_nan x)) s.

Definition sum (s : list float) : float :=
  fold_left PrimFloat.add s PrimFloat.zero.

Definition count (s : list float) : float :=
  PrimFloat.of_uint63 (Uint63.of_Z (Z.of_nat (length s))).

Definition mean (s : list float) : float :=
  match dropna s with
  | [] => PrimFloat.nan
  | v :: vs => PrimFloat.div (sum (v :: vs)) (count (v :: vs))
  end.

(** The [X_scaled] and [Y_scaled] columns [scale_airfoil] computes from the
    [X] and [Y] columns: [centroid + (column - centroid) * scale_factor],
    cell by cell. *)
Definition scale_airfoil (X Y : list float) (scale_factor : float)
    : list float * list float :=
  let centroid_x := mean X in
  let centroid_y := mean Y in
  (map (fun x => PrimFloat.add centroid_x
                   (PrimFloat.mul (PrimFloat.sub x centroid_x) scale_factor)) X,
   map (fun y => PrimFloat.add centroid_y
                   (PrimFloat.mul (PrimFloat.sub y centroid_y) scale_factor)) Y).


End Binary64.

(** ** plot.py: the sliders and the controller's parameter state *)

(** A matplotlib [Slider] as far as the controller uses it: its range, its
    current value, whether it reacts to events, and whether its axes are
    shown. *)
Record Slider : Type := mkSlider {
  valmin : R;
  valmax : R;
  val : R;
  active : bool;
  visible : bool
}.

(** matplotlib's [Slider._value_in_bounds] for a slider closed at both ends
    and without a step: a value outside the range is moved to the nearer
    end. *)
Definition value_in_bounds (lo hi v : R) : R :=
  if Rle_dec v lo then lo
  else if Rge_dec v hi then hi
  else v.

(** [Slider(ax, label, valmin, valmax, valinit)]: the constructor stores
    [valinit] after passing it through [_value_in_bounds]. *)
Definition Slider_init (lo hi valinit : R) : Slider :=
  {| valmin := lo; valmax := hi; val := value_in_bounds lo hi valinit;
     active := true; visible := true |}.

Definition set_active (b : bool) (s : Slider) : Slider :=
  {| valmin := valmin s; valmax := valmax s; val := val s;
     active := b; visible := visible s |}.

Definition set_visible (b : bool) (s : Slider) : Slider :=
  {| valmin := valmin s; valmax := valmax s; val := val s;
     active := active s; visible := b |}.

Record Plotting : Type := mkPlotting {
  task_list : list string;
  angle_slider : Slider;
  scale_slider : Slider
}.

(** What [update_plot] draws: the transform it calls and its parameter. *)
Inductive drawing : Type :=
| TwistLedge (angle_degrees : R)
| Scale (scale_factor : R)
| TwistCentroid (angle_degrees : R).

(** [update_plot]: the new slider states and the transform that is drawn. *)
Definition update_plot (self : Plotting) (task : string) : Plotting * drawing :=
  if String.eqb task "Task 1: Twist by Leading Edge" then
    ({| task_list := task_list self;
        angle_slider := set_active true (set_visible true (angle_slider self));
        scale_slider := set_active false (set_visible false (scale_slider self)) |},
     TwistLedge (val (angle_slider self)))
  else if String.eqb task "Task 2: Scale" then
    ({| task_list := task_list self;
        angle_slider := set_active false (set_visible false (angle_slider self));
        scale_slider := set_active true (set_visible true (scale_slider self)) |},
     Scale (val (scale_slider self)))
  else
    ({| task_list := task_list self;
        angle_slider := set_active true (set_visible true (angle_slider self));
        scale_slider := set_active false (set_visible false (scale_slider self)) |},
     TwistCentroid (val (angle_slider self))).

(** [Plotting.__init__], without the drawing itself: the two sliders are
    created, then the first task is shown.  [task_list[0]] does not exist
    for an empty list ([None]). *)
Definition Plotting_init (tasks : list string) : option (Plotting * drawing) :=
  let angle_slider := set_active true (Slider_init (-180) 180 0) in
  let scale_slider := set_active false (Slider_init 0.1 2.0 0) in
  let self := {| task_list := tasks; angle_slider := angle_slider;
                 scale_slider := scale_slider |} in
  match tasks with
  | [] => None
  | task :: _ => Some (update_plot self task)
  end.

(** [main.py]'s task list. *)
Definition main_task_list : list string :=
  ["Task 1: Twist by Leading Edge"; "Task 2: Scale"; "Task 3: Twist by Centroid"].

(** ** Point sets and the geometry the transforms are compared with *)

Abbreviation point := (R * R)%type.

(** The table of a point set: column [X] holds the abscissas and column [Y]
    the ordinates, in order. *)
Definition frame_of (P : list point) : DataFrame :=
  <["X" := map (fun p : point => Fin (fst p)) P]>
    (<["Y" := map (fun p : point => Fin (snd p)) P]> ∅).

Definition fin_point (p : point) : row := (Fin (fst p), Fin (snd p)).

(** The rows read from two columns of a table. *)
Definition points (fr : DataFrame) (cx cy : string) : option (list row) :=
  match fr !! cx, fr !! cy with
  | Some xs, Some ys => Some (combine xs ys)
  | _, _ => None
  end.

(** The rows read from two columns of the table a transform returned. *)
Definition result_points (o : outcome ref) (cx cy : string) : option (list row) :=
  match o with
  | Return r h' =>
      match h' !! r with
      | Some fr => points fr cx cy
      | None => None
      end
  | Raise _ _ => None
  end.

(** A column of the table a transform returned. *)
Definition result_column (o : outcome ref) (c : string) : option Series :=
  match o with
  | Return r h' =>
      match h' !! r with
      | Some fr => fr !! c
      | None => None
      end
  | Raise _ _ => None
  end.

(** The product of a 2-by-2 real matrix with a column vector. *)
Definition mat_vec (m : (R * R) * (R * R)) (v : point) : point :=
  (fst (fst m) * fst v + snd (fst m) * snd v,
   fst (snd m) * fst v + snd (snd m) * snd v).

Definition rot (theta : R) : (R * R) * (R * R) :=
  ((cos theta, - sin theta), (sin theta, cos theta)).

Definition rotate (theta : R) (p : point) : point := mat_vec (rot theta) p.

(** Arithmetic mean of the abscissas and of the ordinates. *)
Definition centroid (P : list point) : point :=
  (Rsum (map fst P) / INR (length P), Rsum (map snd P) / INR (length P)).

Definition scale_about (c : point) (s : R) (p : point) : point :=
  (fst c + (fst p - fst c) * s, snd c + (snd p - snd c) * s).

Definition rotate_about (c : point) (theta : R) (p : point) : point :=
  let q := rotate theta (fst p - fst c, snd p - snd c) in
  (fst q + fst c, snd q + snd c).

(** Rotation by a quarter turn clockwise and anticlockwise, in the usual
    orientation of the plane (x to the right, y upwards). *)
Definition quarter_turn_clockwise (p : point) : point := (snd p, - fst p).
Definition quarter_turn_anticlockwise (p : point) : point := (- snd p, fst p).

Definition unit_square : list point := [(0, 0); (1, 0); (1, 1); (0, 1)].

(** The columns of the images of a point set under a map of the plane. *)
Definition xcol (g : point -> point) (P : list point) : Series :=
  map (fun p => Fin (fst (g p))) P.

Definition ycol (g : point -> point) (P : list point) : Series :=
  map (fun p => Fin (snd (g p))) P.

(** Point reflection through [c]. *)
Definition reflect_through (c : point) (p : point) : point :=
  (2 * fst c - fst p, 2 * snd c - snd p).

(** The centroid of two columns of a table, computed as the code does it,
    with [mean]. *)
Definition table_centroid (fr : DataFrame) (cx cy : string) : option row :=
  match fr !! cx, fr !! cy with
  | Some xs, Some ys => Some (mean xs, mean ys)
  | _, _ => None
  end.

Definition result_centroid (o : outcome ref) (cx cy : string) : option row :=
  match o with
  | Return r h' =>
      match h' !! r with
      | Some fr => table_centroid fr cx cy
      | None => None
      end
  | Raise _ _ => None
  end.

(** What a call that started in store [h] on the table [df] of the point set
    [P] must have done to count as returning a new structure: it returns a
    reference [r] that was not in use, every object of [h] (the input among
    them) is as it was, and the columns [cx], [cy] of the new table hold, row
    by row, the images under [g] of the points of [P]. *)
Definition returns_new_structure (h : heap) (df : ref) (P : list point)
    (o : outcome ref) (cx cy : string) (g : point -> point) : Prop :=
  exists (r : ref) (h' : heap) (out : list row),
    o = Return r h' /\
    h !! r = None /\
    h' !! df = Some (frame_of P) /\
    (forall r0 : ref, r0 <> r -> h' !! r0 = h !! r0) /\
    result_points o cx cy = Some out /\
    length out = length P /\
    (forall (i : nat) (p : point), P !! i = Some p -> out !! i = Some (fin_point (g p))).

(** What it means for the table a call returned to keep the columns of the
    input table [fr]: every column other than the two result columns [cx],
    [cy] reads as in [fr], [X] and [Y] among them, and [cx], [cy] exist. *)
Definition keeps_original (fr : DataFrame) (o : outcome ref) (cx cy : string) : Prop :=
  result_column o "X" = fr !! "X" /\
  result_column o "Y" = fr !! "Y" /\
  (forall c : string, c <> cx -> c <> cy -> result_column o c = fr !! c) /\
  is_Some (result_column o cx) /\
  is_Some (result_column o cy).

(** Whether a call ended by raising an exception. *)
Definition raises {A : Type} (o : outcome A) : bool :=
  match o with
  | Return _ _ => false
  | Raise _ _ => true
  end.

(** ** plot.py: what the two plotting functions put on the axes *)

(** The texts built with f-strings: the fixed wording and the number that is
    formatted into it. *)
Inductive legend_label : Type :=
| NoLabel
| Original
| Twisted (angle_degrees : R)
| ScaledFactor (scale_factor : R).

Inductive title_text : Type :=
| TwistedAboutLeadingEdge (angle_degrees : R)
| ScaledByFactor (scale_factor : R).

(** One [plt.plot(xs, ys, fmt, label=...)] call. *)
Record plot_call : Type := mkPlot {
  plot_xs : Series;
  plot_ys : Series;
  plot_fmt : string;
  plot_label : legend_label
}.

(** The content of the main axes once a plotting function has returned;
    both functions begin with [plt.cla()], so nothing older is left. *)
Record axes : Type := mkAxes {
  plots : list plot_call;
  grid : bool;
  xlabel : string;
  ylabel : string;
  title : title_text;
  equal_aspect : bool;
  legend : bool
}.

(** [plot_twisted_airfoil].  The [centroid] argument is never read. *)
Definition plot_twisted_airfoil (df : ref) (angle_degrees : R)
    (ledge centroid : bool) : py axes :=
  result_df ← (if ledge then twist_airfoil_ledge df angle_degrees
               else twist_airfoil_centroid df angle_degrees);
  X ← getitem result_df "X";
  Y ← getitem result_df "Y";
  X_twisted ← getitem result_df "X_twisted";
  Y_twisted ← getitem result_df "Y_twisted";
  reference ← (if ledge then mret (mkPlot [Fin 0] [Fin 0] "ko" NoLabel)
               else
                 X ← getitem result_df "X";
                 Y ← getitem result_df "Y";
                 mret (mkPlot [mean X] [mean Y] "ko" NoLabel));
  mret {| plots := [mkPlot X Y "b-" Original;
                    mkPlot X_twisted Y_twisted "r--" (Twisted angle_degrees);
                    reference];
          grid := true; xlabel := "X"; ylabel := "Y";
          title := TwistedAboutLeadingEdge angle_degrees;
          equal_aspect := true; legend := true |}.

(** [plot_scale_airfoil] *)
Definition plot_scale_airfoil (df : ref) (scale_factor : R) : py axes :=
  result_df ← scale_airfoil df scale_factor;
  X ← getitem result_df "X";
  Y ← getitem result_df "Y";
  X_scaled ← getitem result_df "X_scaled";
  Y_scaled ← getitem result_df "Y_scaled";
  mret {| plots := [mkPlot X Y "b-" Original;
                    mkPlot X_scaled Y_scaled "r--" (ScaledFactor scale_factor)];
          grid := true; xlabel := "X"; ylabel := "Y";
          title := ScaledByFactor scale_factor;
          equal_aspect := true; legend := true |}.

(** The plotting call [update_plot] makes in each of its three branches, on
    the controller's table [df]. *)
Definition render (df : ref) (d : drawing) : py axes :=
  match d with
  | TwistLedge angle_degrees => plot_twisted_airfoil df angle_degrees true false
  | Scale scale_factor => plot_scale_airfoil df scale_factor
  | TwistCentroid angle_degrees => plot_twisted_airfoil df angle_degrees false true
  end.

(** A run of mode selections: [update_plot] for each task in turn. *)
Fixpoint select_tasks (self : Plotting) (tasks : list string) : Plotting :=
  match tasks with
  | [] => self
  | task :: tasks' => select_tasks (fst (update_plot self task)) tasks'
  end.

(** The polyline of a [plot_call] as rows. *)
Definition plot_rows (c : plot_call) : list row := combine (plot_xs c) (plot_ys c).

(** The marker [plot_twisted_airfoil] puts on the table of [P]: (0,0) for
    the leading-edge twist, the means of [X] and [Y] for the centroid twist
    ([NaN] when there is no point). *)
Definition reference_marker (ledge : bool) (P : list point) : plot_call :=
  if ledge then mkPlot [Fin 0] [Fin 0] "ko" NoLabel
  else
    match P with
    | [] => mkPlot [NaN] [NaN] "ko" NoLabel
    | _ :: _ => mkPlot [Fin (fst (centroid P))] [Fin (snd (centroid P))] "ko" NoLabel
    end.

(** The map of the plane a drawing shows, for the point set [P]. *)
Definition drawn_map (P : list point) (d : drawing) : point -> point :=
  match d with
  | TwistLedge a => rotate (radians a)
  | Scale s => scale_about (centroid P) s
  | TwistCentroid a => rotate_about (centroid P) (radians a)
  end.

(** The axes expected of a drawing of the point set [P]: the input polyline,
    the dashed polyline of the transformed points and, for the twists, the
    marker. *)
Definition drawn (P : list point) (d : drawing) : axes :=
  let original := mkPlot (xcol (fun p => p) P) (ycol (fun p => p) P) "b-" Original in
  let dashed := fun l =>
    mkPlot (xcol (drawn_map P d) P) (ycol (drawn_map P d) P) "r--" l in
  match d with
  | TwistLedge a =>
      {| plots := [original; dashed (Twisted a); reference_marker true P];
         grid := true; xlabel := "X"; ylabel := "Y";
         title := TwistedAboutLeadingEdge a; equal_aspect := true; legend := true |}
  | Scale s =>
      {| plots := [original; dashed (ScaledFactor s)];
         grid := true; xlabel := "X"; ylabel := "Y";
         title := ScaledByFactor s; equal_aspect := true; legend := true |}
  | TwistCentroid a =>
      {| plots := [original; dashed (Twisted a); reference_marker false P];
         grid := true; xlabel := "X"; ylabel := "Y";
         title := TwistedAboutLeadingEdge a; equal_aspect := true; legend := true |}
  end.

(** ** Further notions used in the statements *)

Definition sqdist (p q : point) : R :=
  (fst p - fst q) * (fst p - fst q) + (snd p - snd q) * (snd p - snd q).

(** A call ended with [KeyError k] and every object of the store [h] is
    still there, unchanged. *)
Definition raises_KeyError {A : Type} (o : outcome A) (k : string) (h : heap) : Prop :=
  exists h' : heap,
    o = Raise (KeyError k) h' /\
    (forall (r : ref) (fr : DataFrame), h !! r = Some fr -> h' !! r = Some fr).

(** The result columns [cx], [cy] of a call on the table of [P] have one
    row per point of [P], and any two input points [p], [q] (at rows [i],
    [j]) and their output rows [p'], [q'] (at the same rows) satisfy
    [Rel p q p' q']. *)
Definition rows_satisfy (P : list point) (o : outcome ref) (cx cy : string)
    (Rel : point -> point -> point -> point -> Prop) : Prop :=
  exists out : list row,
    result_points o cx cy = Some out /\
    length out = length P /\
    (forall (i j : nat) (p q : point),
        P !! i = Some p -> P !! j = Some q ->
        exists p' q' : point,
          out !! i = Some (fin_point p') /\
          out !! j = Some (fin_point q') /\
          Rel p q p' q').

(** ** Running the transforms on a table that has its [X] and [Y] columns *)

Ltac py_simpl :=
  unfold mbind, py_bind, mret, py_ret, getitem, setitem; cbn beta iota;
  repeat (rewrite ?lookup_total_insert_eq, ?lookup_insert_eq; cbn beta iota).

Section Run.
Variables (h : heap) (df : ref) (fr : DataFrame) (xs ys : Series).
Hypothesis Hdf : h !! df = Some fr.
Hypothesis HX : fr !! "X" = Some xs.
Hypothesis HY : fr !! "Y" = Some ys.

Lemma copy_run :
  DataFrame_copy df h = Return (fresh (dom h)) (<[fresh (dom h) := fr]> h).
Proof using Hdf.
  unfold DataFrame_copy. by rewrite (lookup_total_correct _ _ _ Hdf).
Qed.

Lemma twist_airfoil_ledge_run (a : R) :
  twist_airfoil_ledge df a h =
    let r := fresh (dom h) in
    let rc := dot (column_stack xs ys) (T (rotation_matrix (radians a))) in
    Return r (<[r := <["Y_twisted" := col1 rc]> (<["X_twisted" := col0 rc]> fr)]> h).
Proof using Hdf HX HY.
  unfold twist_airfoil_ledge. py_simpl. rewrite copy_run.
  repeat (rewrite ?lookup_total_insert_eq, ?HX, ?HY; cbn beta iota).
  by rewrite !insert_insert_eq.
Qed.

Lemma twist_airfoil_centroid_run (a : R) :
  twist_airfoil_centroid df a h =
    let r := fresh (dom h) in
    let rc := dot (column_stack (Series_sub xs (mean xs)) (Series_sub ys (mean ys)))
                  (T (rotation_matrix (radians a))) in
    Return r (<[r := <["Y_twisted" := Series_add (col1 rc) (mean ys)]>
                       (<["X_twisted" := Series_add (col0 rc) (mean xs)]> fr)]> h).
Proof using Hdf HX HY.
  unfold twist_airfoil_centroid. py_simpl. rewrite copy_run.
  repeat (rewrite ?lookup_total_insert_eq, ?HX, ?HY; cbn beta iota).
  by rewrite !insert_insert_eq.
Qed.

Lemma scale_airfoil_run (s : R) :
  scale_airfoil df s h =
    let r := fresh (dom h) in
    Return r (<[r := <["Y_scaled" := Series_radd (mean ys)
                          (Series_mul (Series_sub ys (mean ys)) (Fin s))]>
                       (<["X_scaled" := Series_radd (mean xs)
                          (Series_mul (Series_sub xs (mean xs)) (Fin s))]> fr)]> h).
Proof using Hdf HX HY.
  unfold scale_airfoil. py_simpl. rewrite copy_run.
  repeat (rewrite ?lookup_total_insert_eq, ?lookup_insert_ne, ?HX, ?HY by done;
          cbn beta iota).
  by rewrite !insert_insert_eq.
Qed.
End Run.

(** ** Columns of finite cells *)

Lemma dropna_fin {A : Type} (f : A -> R) (l : list A) :
  dropna (map (fun p => Fin (f p)) l) = map f l.
Proof. induction l as [|a l IH]; simpl; [done | by rewrite IH]. Qed.

Lemma mean_nil : mean [] = NaN.
Proof. reflexivity. Qed.

Lemma mean_fin {A : Type} (f : A -> R) (l : list A) :
  l <> [] ->
  mean (map (fun p => Fin (f p)) l) = Fin (Rsum (map f l) / INR (length l)).
Proof.
  intros Hl. unfold mean. rewrite dropna_fin.
  destruct l as [|a l]; [done |]. cbn [map].
  by rewrite <- (length_map f (a :: l)).
Qed.

Lemma combine_fst_snd {A B : Type} (l : list (A * B)) :
  combine (map fst l) (map snd l) = l.
Proof. induction l as [|[a b] l IH]; simpl; [done | by rewrite IH]. Qed.

Lemma column_stack_frame (P : list point) :
  column_stack (map (fun p : point => Fin (fst p)) P)
               (map (fun p : point => Fin (snd p)) P) = map fin_point P.
Proof. induction P as [|p P IH]; simpl; [done | by rewrite <- IH]. Qed.

Lemma frame_of_X (P : list point) :
  frame_of P !! "X" = Some (map (fun p : point => Fin (fst p)) P).
Proof. unfold frame_of. by rewrite lookup_insert_eq. Qed.

Lemma frame_of_Y (P : list point) :
  frame_of P !! "Y" = Some (map (fun p : point => Fin (snd p)) P).
Proof. unfold frame_of. rewrite lookup_insert_ne by done. by rewrite lookup_insert_eq. Qed.

Lemma dot_rotation (P : list point) (theta : R) :
  dot (map fin_point P) (T (rotation_matrix theta)) =
  map fin_point (map (rotate theta) P).
Proof.
  induction P as [|[x y] P IH]; [done |].
  cbn [map]. rewrite <- IH. unfold dot, T, rotation_matrix. cbn [map].
  f_equal. unfold fin_point, rotate, mat_vec, rot. cbn.
  f_equal; f_equal; ring.
Qed.

(** The centroid the code computes for a non-empty point set. *)
Lemma mean_X (P : list point) :
  P <> [] -> mean (map (fun p : point => Fin (fst p)) P) = Fin (fst (centroid P)).
Proof. intros HP. by rewrite (mean_fin fst). Qed.

Lemma mean_Y (P : list point) :
  P <> [] -> mean (map (fun p : point => Fin (snd p)) P) = Fin (snd (centroid P)).
Proof. intros HP. by rewrite (mean_fin snd). Qed.

Lemma centroid_rotation (P Q : list point) (c : point) (theta : R) :
  Series_add
    (col0 (dot (column_stack
                  (Series_sub (map (fun p : point => Fin (fst p)) Q) (Fin (fst c)))
                  (Series_sub (map (fun p : point => Fin (snd p)) Q) (Fin (snd c))))
               (T (rotation_matrix theta)))) (Fin (fst c)) =
    map (fun p : point => Fin (fst (rotate_about c theta p))) Q
  /\
  Series_add
    (col1 (dot (column_stack
                  (Series_sub (map (fun p : point => Fin (fst p)) Q) (Fin (fst c)))
                  (Series_sub (map (fun p : point => Fin (snd p)) Q) (Fin (snd c))))
               (T (rotation_matrix theta)))) (Fin (snd c)) =
    map (fun p : point => Fin (snd (rotate_about c theta p))) Q.
Proof.
  induction Q as [|[x y] Q [IH0 IH1]]; [done |].
  unfold Series_add, col0, col1, dot, T, rotation_matrix, column_stack, Series_sub in *.
  cbn [map combine fst snd] in *. rewrite IH0, IH1.
  unfold rotate_about, rotate, mat_vec, rot. cbn [fst snd fadd fsub fmul].
  split; f_equal; f_equal; ring.
Qed.

Lemma centroid_scaling (Q : list point) (c : point) (s : R) :
  Series_radd (Fin (fst c))
    (Series_mul (Series_sub (map (fun p : point => Fin (fst p)) Q) (Fin (fst c))) (Fin s)) =
    map (fun p : point => Fin (fst (scale_about c s p))) Q
  /\
  Series_radd (Fin (snd c))
    (Series_mul (Series_sub (map (fun p : point => Fin (snd p)) Q) (Fin (snd c))) (Fin s)) =
    map (fun p : point => Fin (snd (scale_about c s p))) Q.
Proof.
  unfold Series_radd, Series_mul, Series_sub. rewrite !map_map. done.
Qed.

(** ** The transforms on the table of a point set *)

Lemma combine_xcol_ycol (g : point -> point) (P : list point) :
  combine (xcol g P) (ycol g P) = map fin_point (map g P).
Proof. induction P as [|p P IH]; simpl; [done | by rewrite IH]. Qed.

Lemma col_dot_rotation (P : list point) (theta : R) :
  col0 (dot (map fin_point P) (T (rotation_matrix theta))) = xcol (rotate theta) P /\
  col1 (dot (map fin_point P) (T (rotation_matrix theta))) = ycol (rotate theta) P.
Proof.
  rewrite dot_rotation. unfold col0, col1, xcol, ycol.
  by rewrite !map_map.
Qed.

Section OnPoints.
Variables (h : heap) (df : ref) (P : list point).
Hypothesis Hdf : h !! df = Some (frame_of P).

Lemma twist_airfoil_ledge_frame (a : R) :
  twist_airfoil_ledge df a h =
    Return (fresh (dom h))
      (<[fresh (dom h) :=
           <["Y_twisted" := ycol (rotate (radians a)) P]>
             (<["X_twisted" := xcol (rotate (radians a)) P]> (frame_of P))]> h).
Proof using Hdf.
  rewrite (twist_airfoil_ledge_run _ _ _ _ _ Hdf (frame_of_X P) (frame_of_Y P)).
  cbn zeta. rewrite column_stack_frame.
  destruct (col_dot_rotation P (radians a)) as [-> ->]. done.
Qed.

Lemma twist_airfoil_centroid_frame (a : R) :
  twist_airfoil_centroid df a h =
    Return (fresh (dom h))
      (<[fresh (dom h) :=
           <["Y_twisted" := ycol (rotate_about (centroid P) (radians a)) P]>
             (<["X_twisted" := xcol (rotate_about (centroid P) (radians a)) P]>
                (frame_of P))]> h).
Proof using Hdf.
  rewrite (twist_airfoil_centroid_run _ _ _ _ _ Hdf (frame_of_X P) (frame_of_Y P)).
  cbn zeta. destruct (decide (P = [])) as [-> | HP]; [done |].
  rewrite (mean_X P HP), (mean_Y P HP).
  destruct (centroid_rotation P P (centroid P) (radians a)) as [-> ->]. done.
Qed.

Lemma scale_airfoil_frame (s : R) :
  scale_airfoil df s h =
    Return (fresh (dom h))
      (<[fresh (dom h) :=
           <["Y_scaled" := ycol (scale_about (centroid P) s) P]>
             (<["X_scaled" := xcol (scale_about (centroid P) s) P]>
                (frame_of P))]> h).
Proof using Hdf.
  rewrite (scale_airfoil_run _ _ _ _ _ Hdf (frame_of_X P) (frame_of_Y P)).
  cbn zeta. destruct (decide (P = [])) as [-> | HP]; [done |].
  rewrite (mean_X P HP), (mean_Y P HP).
  destruct (centroid_scaling P (centroid P) s) as [-> ->]. done.
Qed.

Lemma twist_airfoil_ledge_points (a : R) :
  result_points (twist_airfoil_ledge df a h) "X_twisted" "Y_twisted" =
    Some (map fin_point (map (rotate (radians a)) P)).
Proof using Hdf.
  rewrite twist_airfoil_ledge_frame. unfold result_points, points.
  rewrite lookup_insert_eq, lookup_insert_eq.
  rewrite lookup_insert_ne by done. rewrite lookup_insert_eq.
  by rewrite combine_xcol_ycol.
Qed.

Lemma twist_airfoil_centroid_points (a : R) :
  result_points (twist_airfoil_centroid df a h) "X_twisted" "Y_twisted" =
    Some (map fin_point (map (rotate_about (centroid P) (radians a)) P)).
Proof using Hdf.
  rewrite twist_airfoil_centroid_frame. unfold result_points, points.
  rewrite lookup_insert_eq, lookup_insert_eq.
  rewrite lookup_insert_ne by done. rewrite lookup_insert_eq.
  by rewrite combine_xcol_ycol.
Qed.

Lemma scale_airfoil_points (s : R) :
  result_points (scale_airfoil df s h) "X_scaled" "Y_scaled" =
    Some (map fin_point (map (scale_about (centroid P) s) P)).
Proof using Hdf.
  rewrite scale_airfoil_frame. unfold result_points, points.
  rewrite lookup_insert_eq, lookup_insert_eq.
  rewrite lookup_insert_ne by done. rewrite lookup_insert_eq.
  by rewrite combine_xcol_ycol.
Qed.
End OnPoints.

(** ** Facts about the plane maps *)

Lemma radians_0 : radians 0 = 0.
Proof. unfold radians. ring. Qed.

Lemma radians_90 : radians 90 = PI / 2.
Proof. unfold radians. field. Qed.

Lemma radians_opp (a : R) : radians (- a) = - radians a.
Proof. unfold radians. ring. Qed.

Lemma rotate_0 (p : point) : rotate 0 p = p.
Proof.
  destruct p as [x y]. unfold rotate, mat_vec, rot. cbn [fst snd].
  rewrite cos_0, sin_0. f_equal; ring.
Qed.

Lemma rotate_quarter (p : point) :
  rotate (PI / 2) p = quarter_turn_anticlockwise p.
Proof.
  destruct p as [x y]. unfold rotate, mat_vec, rot, quarter_turn_anticlockwise.
  cbn [fst snd]. rewrite cos_PI2, sin_PI2. f_equal; ring.
Qed.

Lemma rotate_back (theta : R) (p : point) : rotate (- theta) (rotate theta p) = p.
Proof.
  destruct p as [x y]. unfold rotate, mat_vec, rot. cbn [fst snd].
  rewrite cos_neg, sin_neg.
  pose proof (sin2_cos2 theta) as Hsc. unfold Rsqr in Hsc.
  f_equal.
  - transitivity (x * (sin theta * sin theta + cos theta * cos theta)); [ring |].
    rewrite Hsc. ring.
  - transitivity (y * (sin theta * sin theta + cos theta * cos theta)); [ring |].
    rewrite Hsc. ring.
Qed.


Lemma scale_about_1 (c p : point) : scale_about c 1 p = p.
Proof. destruct p as [x y]. unfold scale_about. cbn [fst snd]. f_equal; ring. Qed.

Lemma scale_about_0 (c p : point) : scale_about c 0 p = c.
Proof. destruct c as [cx cy]. unfold scale_about. cbn [fst snd]. f_equal; ring. Qed.

Lemma scale_about_neg (c p : point) (s : R) :
  s < 0 -> scale_about c s p = scale_about c (Rabs s) (reflect_through c p).
Proof.
  intros Hs. rewrite (Rabs_left s Hs).
  unfold scale_about, reflect_through. cbn [fst snd]. f_equal; ring.
Qed.

Lemma map_id_ext {A : Type} (g : A -> A) (l : list A) :
  (forall a, g a = a) -> map g l = l.
Proof. intros Hg. induction l as [|a l IH]; simpl; [done | by rewrite Hg, IH]. Qed.

(** ** Rotation about the leading edge *)

(** C1: on the table of any point set, [twist_airfoil_ledge] returns in
    [X_twisted], [Y_twisted] the product of the matrix
    [[cos t, -sin t], [sin t, cos t]], [t] the angle in radians, with each
    point taken as a column vector; the centre (0,0) is a fixed point; and
    the unit square turned by 90 degrees becomes (0,0), (0,1), (-1,1),
    (-1,0). *)
Theorem twist_airfoil_ledge_rotation_matrix :
  (forall (h : heap) (df : ref) (P : list point) (angle_degrees : R),
      h !! df = Some (frame_of P) ->
      result_points (twist_airfoil_ledge df angle_degrees h) "X_twisted" "Y_twisted" =
        Some (map fin_point (map (mat_vec (rot (radians angle_degrees))) P))) /\
  (forall theta : R, mat_vec (rot theta) (0, 0) = (0, 0)) /\
  (forall (h : heap) (df : ref),
      h !! df = Some (frame_of unit_square) ->
      result_points (twist_airfoil_ledge df 90 h) "X_twisted" "Y_twisted" =
        Some (map fin_point [(0, 0); (0, 1); (-1, 1); (-1, 0)])).
Proof.
  split; [| split].
  - intros h df P a Hdf. exact (twist_airfoil_ledge_points h df P Hdf a).
  - intros theta. unfold mat_vec, rot. cbn [fst snd]. f_equal; ring.
  - intros h df Hdf. rewrite (twist_airfoil_ledge_points h df _ Hdf).
    rewrite radians_90. unfold unit_square. cbn [map].
    rewrite !rotate_quarter. unfold quarter_turn_anticlockwise, fin_point.
    cbn [fst snd]. repeat f_equal; ring.
Qed.

Lemma twist_airfoil_ledge_rotation_matrix_witness :
  ({[1%positive := frame_of unit_square]} : heap) !! 1%positive =
    Some (frame_of unit_square) /\
  result_points
    (twist_airfoil_ledge 1%positive 90 {[1%positive := frame_of unit_square]})
    "X_twisted" "Y_twisted" =
    Some (map fin_point [(0, 0); (0, 1); (-1, 1); (-1, 0)]).
Proof.
  split.
  - apply lookup_singleton_eq.
  - apply (proj2 (proj2 twist_airfoil_ledge_rotation_matrix)).
    apply lookup_singleton_eq.
Defined.

(** C2: the docstring of [twist_airfoil_ledge] calls a positive angle
    clockwise, but the code turns the point (1,0) by 90 degrees to (0,1),
    the anticlockwise quarter turn, and not to (0,-1), the clockwise one. *)
Theorem twist_airfoil_ledge_positive_is_anticlockwise :
  forall (h : heap) (df : ref),
    h !! df = Some (frame_of [(1, 0)]) ->
    result_points (twist_airfoil_ledge df 90 h) "X_twisted" "Y_twisted" =
      Some [(Fin 0, Fin 1)] /\
    quarter_turn_anticlockwise (1, 0) = (0, 1) /\
    quarter_turn_clockwise (1, 0) = (0, -1) /\
    result_points (twist_airfoil_ledge df 90 h) "X_twisted" "Y_twisted" <>
      Some [fin_point (quarter_turn_clockwise (1, 0))].
Proof.
  intros h df Hdf.
  assert (Hrun : result_points (twist_airfoil_ledge df 90 h) "X_twisted" "Y_twisted" =
                 Some [(Fin 0, Fin 1)]).
  { rewrite (twist_airfoil_ledge_points h df _ Hdf), radians_90. cbn [map].
    rewrite rotate_quarter. unfold quarter_turn_anticlockwise, fin_point.
    cbn [fst snd]. repeat f_equal; ring. }
  split; [exact Hrun |]. split; [| split].
  - unfold quarter_turn_anticlockwise. cbn [fst snd]. f_equal; ring.
  - reflexivity.
  - rewrite Hrun. unfold quarter_turn_clockwise, fin_point. cbn [fst snd].
    intros Heq. inversion Heq as [Hy]. lra.
Qed.

Lemma twist_airfoil_ledge_positive_is_anticlockwise_witness :
  ({[1%positive := frame_of [(1, 0)]]} : heap) !! 1%positive =
    Some (frame_of [(1, 0)]) /\
  result_points
    (twist_airfoil_ledge 1%positive 90 {[1%positive := frame_of [(1, 0)]]})
    "X_twisted" "Y_twisted" = Some [(Fin 0, Fin 1)].
Proof.
  split.
  - apply lookup_singleton_eq.
  - refine (proj1 (twist_airfoil_ledge_positive_is_anticlockwise
                     {[1%positive := frame_of [(1, 0)]]} 1%positive _)).
    apply lookup_singleton_eq.
Defined.

(** ** Rotation about the centroid on an empty point set *)

(** C3, the claim refuted: on the table of the empty point set
    [twist_airfoil_centroid] raises nothing. *)
Lemma twist_airfoil_centroid_empty_no_error :
  ~ (exists (e : exn) (h' : heap),
        twist_airfoil_centroid 1%positive 0 {[1%positive := frame_of []]} =
          Raise e h').
Proof.
  intros (e & h' & Hraise).
  rewrite (twist_airfoil_centroid_frame {[1%positive := frame_of []]} 1%positive [])
    in Hraise by apply lookup_singleton_eq.
  discriminate.
Qed.

(** C3, amended: on the table of the empty point set
    [twist_airfoil_centroid] reports no error; the centroid it computes is
    [NaN], and it returns a new table whose [X_twisted] and [Y_twisted]
    columns are empty, so that no [NaN] appears in them. *)
Theorem twist_airfoil_centroid_empty_returns :
  forall (h : heap) (df : ref) (angle_degrees : R),
    h !! df = Some (frame_of []) ->
    raises (twist_airfoil_centroid df angle_degrees h) = false /\
    table_centroid (frame_of []) "X" "Y" = Some (NaN, NaN) /\
    result_column (twist_airfoil_centroid df angle_degrees h) "X_twisted" = Some [] /\
    result_column (twist_airfoil_centroid df angle_degrees h) "Y_twisted" = Some [].
Proof.
  intros h df a Hdf. rewrite (twist_airfoil_centroid_frame h df [] Hdf).
  unfold raises, result_column. rewrite lookup_insert_eq.
  rewrite lookup_insert_ne by done. rewrite !lookup_insert_eq.
  split; [done |]. split; [| done].
  unfold table_centroid. rewrite frame_of_X, frame_of_Y. cbn [map].
  by rewrite mean_nil.
Qed.

Lemma twist_airfoil_centroid_empty_returns_witness :
  ({[1%positive := frame_of []]} : heap) !! 1%positive = Some (frame_of []) /\
  raises (twist_airfoil_centroid 1%positive 0 {[1%positive := frame_of []]}) = false.
Proof.
  split.
  - apply lookup_singleton_eq.
  - refine (proj1 (twist_airfoil_centroid_empty_returns
                     {[1%positive := frame_of []]} 1%positive 0 _)).
    apply lookup_singleton_eq.
Defined.

(** ** Scaling about the centroid *)

Lemma INR_4 : INR 4 = 4.
Proof. rewrite INR_IZR_INZ. reflexivity. Qed.

Lemma centroid_unit_square : centroid unit_square = (0.5, 0.5).
Proof.
  unfold centroid, unit_square. cbn [map fst snd Rsum length].
  rewrite INR_4. f_equal; lra.
Qed.

(** C4: on the table of any point set and for any factor [s],
    [scale_airfoil] returns in [X_scaled], [Y_scaled] the points
    centroid + (point - centroid) * s, the centroid being the mean of the
    abscissas and of the ordinates (the value the code's [mean] gives on a
    non-empty point set); with [s = 0] every point is the centroid; with
    [s < 0] the point is reflected through the centroid and scaled by [|s|];
    and the unit square scaled by 2 becomes (-0.5,-0.5), (1.5,-0.5),
    (1.5,1.5), (-0.5,1.5). *)
Theorem scale_airfoil_about_centroid :
  (forall (h : heap) (df : ref) (P : list point) (s : R),
      h !! df = Some (frame_of P) ->
      result_points (scale_airfoil df s h) "X_scaled" "Y_scaled" =
        Some (map fin_point (map (scale_about (centroid P) s) P))) /\
  (forall P : list point,
      P <> [] ->
      table_centroid (frame_of P) "X" "Y" = Some (fin_point (centroid P))) /\
  (forall (h : heap) (df : ref) (P : list point),
      h !! df = Some (frame_of P) ->
      result_points (scale_airfoil df 0 h) "X_scaled" "Y_scaled" =
        Some (map fin_point (map (fun _ => centroid P) P))) /\
  (forall (h : heap) (df : ref) (P : list point) (s : R),
      h !! df = Some (frame_of P) ->
      s < 0 ->
      result_points (scale_airfoil df s h) "X_scaled" "Y_scaled" =
        Some (map fin_point
                (map (fun p => scale_about (centroid P) (Rabs s)
                                 (reflect_through (centroid P) p)) P))) /\
  (forall (h : heap) (df : ref),
      h !! df = Some (frame_of unit_square) ->
      result_points (scale_airfoil df 2.0 h) "X_scaled" "Y_scaled" =
        Some (map fin_point [(-0.5, -0.5); (1.5, -0.5); (1.5, 1.5); (-0.5, 1.5)])).
Proof.
  split; [| split; [| split; [| split]]].
  - intros h df P s Hdf. exact (scale_airfoil_points h df P Hdf s).
  - intros P HP. unfold table_centroid.
    rewrite frame_of_X, frame_of_Y, (mean_X P HP), (mean_Y P HP). done.
  - intros h df P Hdf. rewrite (scale_airfoil_points h df P Hdf).
    do 2 f_equal. apply map_ext. intros p. apply scale_about_0.
  - intros h df P s Hdf Hs. rewrite (scale_airfoil_points h df P Hdf).
    do 2 f_equal. apply map_ext. intros p. by apply scale_about_neg.
  - intros h df Hdf. rewrite (scale_airfoil_points h df _ Hdf).
    rewrite centroid_unit_square. unfold unit_square, scale_about, fin_point.
    cbn [map fst snd]. repeat f_equal; lra.
Qed.

Lemma scale_airfoil_about_centroid_witness :
  ({[1%positive := frame_of unit_square]} : heap) !! 1%positive =
    Some (frame_of unit_square) /\
  result_points
    (scale_airfoil 1%positive 2.0 {[1%positive := frame_of unit_square]})
    "X_scaled" "Y_scaled" =
    Some (map fin_point [(-0.5, -0.5); (1.5, -0.5); (1.5, 1.5); (-0.5, 1.5)]).
Proof.
  split.
  - apply lookup_singleton_eq.
  - apply (proj2 (proj2 (proj2 (proj2 scale_airfoil_about_centroid)))).
    apply lookup_singleton_eq.
Defined.

(** ** The neutral parameter *)



(** ** The centroid of the transformed points *)

Lemma Rsum_linear (g f1 f2 : point -> R) (k0 k1 k2 : R) (P : list point) :
  (forall p, g p = k0 + k1 * f1 p + k2 * f2 p) ->
  Rsum (map g P) =
    INR (length P) * k0 + k1 * Rsum (map f1 P) + k2 * Rsum (map f2 P).
Proof.
  intros Hg. induction P as [|p P IH].
  - cbn [map Rsum length INR]. ring.
  - cbn [map Rsum length]. rewrite S_INR, IH, Hg. ring.
Qed.

Lemma length_INR_nonzero {A : Type} (l : list A) : l <> [] -> INR (length l) <> 0.
Proof. intros Hl. apply not_0_INR. by destruct l. Qed.

(** The mean of the images under an affine map that fixes the centroid is
    the centroid. *)
Lemma mean_affine (g : point -> point) (P : list point)
    (a0 a1 a2 b0 b1 b2 : R) :
  P <> [] ->
  (forall p, fst (g p) = a0 + a1 * fst p + a2 * snd p) ->
  (forall p, snd (g p) = b0 + b1 * fst p + b2 * snd p) ->
  g (centroid P) = centroid P ->
  mean (xcol g P) = Fin (fst (centroid P)) /\
  mean (ycol g P) = Fin (snd (centroid P)).
Proof.
  intros HP Hx Hy Hfix. pose proof (length_INR_nonzero P HP) as Hn.
  unfold xcol, ycol.
  rewrite (mean_fin (fun p => fst (g p)) P HP), (mean_fin (fun p => snd (g p)) P HP).
  rewrite (Rsum_linear _ fst snd a0 a1 a2 P Hx).
  rewrite (Rsum_linear _ fst snd b0 b1 b2 P Hy).
  assert (Hcx : fst (g (centroid P)) = fst (centroid P)) by (by rewrite Hfix).
  assert (Hcy : snd (g (centroid P)) = snd (centroid P)) by (by rewrite Hfix).
  rewrite Hx in Hcx. rewrite Hy in Hcy.
  split; f_equal.
  - rewrite <- Hcx. unfold centroid. cbn [fst snd]. by field.
  - rewrite <- Hcy. unfold centroid. cbn [fst snd]. by field.
Qed.

Lemma scale_about_fix (c : point) (s : R) : scale_about c s c = c.
Proof. destruct c as [cx cy]. unfold scale_about. cbn [fst snd]. f_equal; ring. Qed.

Lemma rotate_about_fix (c : point) (theta : R) : rotate_about c theta c = c.
Proof.
  destruct c as [cx cy]. unfold rotate_about, rotate, mat_vec, rot.
  cbn [fst snd]. f_equal; ring.
Qed.

Lemma mean_scale_about (P : list point) (s : R) :
  P <> [] ->
  mean (xcol (scale_about (centroid P) s) P) = Fin (fst (centroid P)) /\
  mean (ycol (scale_about (centroid P) s) P) = Fin (snd (centroid P)).
Proof.
  intros HP. set (c := centroid P).
  apply (mean_affine _ P (fst c - fst c * s) s 0 (snd c - snd c * s) 0 s HP).
  - intros p. unfold scale_about. cbn [fst snd]. ring.
  - intros p. unfold scale_about. cbn [fst snd]. ring.
  - apply scale_about_fix.
Qed.

Lemma mean_rotate_about (P : list point) (theta : R) :
  P <> [] ->
  mean (xcol (rotate_about (centroid P) theta) P) = Fin (fst (centroid P)) /\
  mean (ycol (rotate_about (centroid P) theta) P) = Fin (snd (centroid P)).
Proof.
  intros HP. set (c := centroid P).
  apply (mean_affine _ P
           (fst c - cos theta * fst c + sin theta * snd c) (cos theta) (- sin theta)
           (snd c - sin theta * fst c - cos theta * snd c) (sin theta) (cos theta) HP).
  - intros p. unfold rotate_about, rotate, mat_vec, rot. cbn [fst snd]. ring.
  - intros p. unfold rotate_about, rotate, mat_vec, rot. cbn [fst snd]. ring.
  - apply rotate_about_fix.
Qed.

(** C6, amended: over exact arithmetic, for a non-empty point set, the
    centroid (mean of the abscissas, mean of the ordinates) of the output of
    [scale_airfoil], for any factor, and of the output of
    [twist_airfoil_centroid], for any angle, is the centroid of the input.
    (In binary64 the two centroids can differ in the last bits:
    [scale_airfoil_moves_centroid_in_last_bits].) *)
Theorem centroid_preserved :
  forall (h : heap) (df : ref) (P : list point) (s angle_degrees : R),
    h !! df = Some (frame_of P) ->
    P <> [] ->
    table_centroid (frame_of P) "X" "Y" = Some (fin_point (centroid P)) /\
    result_centroid (scale_airfoil df s h) "X_scaled" "Y_scaled" =
      table_centroid (frame_of P) "X" "Y" /\
    result_centroid (twist_airfoil_centroid df angle_degrees h) "X_twisted" "Y_twisted" =
      table_centroid (frame_of P) "X" "Y".
Proof.
  intros h df P s a Hdf HP.
  assert (Hin : table_centroid (frame_of P) "X" "Y" = Some (fin_point (centroid P))).
  { unfold table_centroid.
    rewrite frame_of_X, frame_of_Y, (mean_X P HP), (mean_Y P HP). done. }
  split; [exact Hin |]. rewrite Hin. split.
  - rewrite (scale_airfoil_frame h df P Hdf). unfold result_centroid, table_centroid.
    rewrite lookup_insert_eq, lookup_insert_eq.
    rewrite lookup_insert_ne by done. rewrite lookup_insert_eq.
    destruct (mean_scale_about P s HP) as [-> ->]. done.
  - rewrite (twist_airfoil_centroid_frame h df P Hdf).
    unfold result_centroid, table_centroid.
    rewrite lookup_insert_eq, lookup_insert_eq.
    rewrite lookup_insert_ne by done. rewrite lookup_insert_eq.
    destruct (mean_rotate_about P (radians a) HP) as [-> ->]. done.
Qed.

Lemma centroid_preserved_witness :
  ({[1%positive := frame_of unit_square]} : heap) !! 1%positive =
    Some (frame_of unit_square) /\
  unit_square <> [] /\
  result_centroid
    (scale_airfoil 1%positive 2.0 {[1%positive := frame_of unit_square]})
    "X_scaled" "Y_scaled" = table_centroid (frame_of unit_square) "X" "Y".
Proof.
  split; [apply lookup_singleton_eq |]. split; [discriminate |].
  refine (proj1 (proj2 (centroid_preserved
                          {[1%positive := frame_of unit_square]} 1%positive
                          unit_square 2.0 0 _ _))).
  - apply lookup_singleton_eq.
  - discriminate.
Defined.

(** ** Undoing a rotation about the leading edge *)

Lemma fin_points_inj (P Q : list point) :
  map fin_point P = map fin_point Q -> P = Q.
Proof.
  revert Q. induction P as [|[x y] P IH]; intros [|[x' y'] Q] Heq;
    try discriminate; [done |].
  cbn [map] in Heq. unfold fin_point at 1 3 in Heq. cbn [fst snd] in Heq.
  injection Heq as Hx Hy Hrest. subst. f_equal. by apply IH.
Qed.

(** C7: when [twist_airfoil_ledge] with angle [a] has turned the point set
    [P] into the points [Q], [twist_airfoil_ledge] with angle [-a] on the
    table of [Q] gives [P] back (the arithmetic being exact). *)
Theorem twist_airfoil_ledge_opposite_angle :
  forall (h : heap) (df : ref) (P : list point) (angle_degrees : R)
         (Q : list point) (h2 : heap) (df2 : ref),
    h !! df = Some (frame_of P) ->
    result_points (twist_airfoil_ledge df angle_degrees h) "X_twisted" "Y_twisted" =
      Some (map fin_point Q) ->
    h2 !! df2 = Some (frame_of Q) ->
    result_points (twist_airfoil_ledge df2 (- angle_degrees) h2) "X_twisted" "Y_twisted" =
      Some (map fin_point P).
Proof.
  intros h df P a Q h2 df2 Hdf Hrun Hdf2.
  rewrite (twist_airfoil_ledge_points h df P Hdf) in Hrun.
  injection Hrun as HQ. apply fin_points_inj in HQ. subst Q.
  rewrite (twist_airfoil_ledge_points h2 df2 _ Hdf2).
  rewrite radians_opp. do 2 f_equal. rewrite map_map.
  apply map_id_ext. intros p. apply rotate_back.
Qed.

Lemma twist_airfoil_ledge_opposite_angle_witness :
  ({[1%positive := frame_of [(1, 0)]]} : heap) !! 1%positive =
    Some (frame_of [(1, 0)]) /\
  result_points
    (twist_airfoil_ledge 1%positive 90 {[1%positive := frame_of [(1, 0)]]})
    "X_twisted" "Y_twisted" = Some (map fin_point [(0, 1)]) /\
  ({[2%positive := frame_of [(0, 1)]]} : heap) !! 2%positive =
    Some (frame_of [(0, 1)]) /\
  result_points
    (twist_airfoil_ledge 2%positive (- 90) {[2%positive := frame_of [(0, 1)]]})
    "X_twisted" "Y_twisted" = Some (map fin_point [(1, 0)]).
Proof.
  assert (H1 : ({[1%positive := frame_of [(1, 0)]]} : heap) !! 1%positive =
               Some (frame_of [(1, 0)])) by apply lookup_singleton_eq.
  assert (H2 : ({[2%positive := frame_of [(0, 1)]]} : heap) !! 2%positive =
               Some (frame_of [(0, 1)])) by apply lookup_singleton_eq.
  assert (Hrun : result_points
            (twist_airfoil_ledge 1%positive 90 {[1%positive := frame_of [(1, 0)]]})
            "X_twisted" "Y_twisted" = Some (map fin_point [(0, 1)])).
  { rewrite (twist_airfoil_ledge_points _ _ _ H1), radians_90. cbn [map].
    rewrite rotate_quarter. unfold quarter_turn_anticlockwise, fin_point.
    cbn [fst snd]. repeat f_equal; ring. }
  split; [exact H1 |]. split; [exact Hrun |]. split; [exact H2 |].
  exact (twist_airfoil_ledge_opposite_angle _ _ _ _ _ _ _ H1 Hrun H2).
Defined.

(** ** The input is left alone and the result is a new table *)

Lemma lookup_map_Some {A B : Type} (g : A -> B) (l : list A) (i : nat) (a : A) :
  l !! i = Some a -> map g l !! i = Some (g a).
Proof.
  revert i. induction l as [|b l IH]; intros [|i] Hi; try discriminate.
  - injection Hi as ->. done.
  - cbn in Hi |- *. by apply IH.
Qed.

Lemma fresh_ref_unused (h : heap) : h !! fresh (dom h) = None.
Proof. apply not_elem_of_dom. apply is_fresh. Qed.

Lemma returns_new_structure_intro (h : heap) (df : ref) (P : list point)
    (o : outcome ref) (cx cy : string) (g : point -> point) (fr' : DataFrame) :
  h !! df = Some (frame_of P) ->
  o = Return (fresh (dom h)) (<[fresh (dom h) := fr']> h) ->
  result_points o cx cy = Some (map fin_point (map g P)) ->
  returns_new_structure h df P o cx cy g.
Proof.
  intros Hdf Ho Hpts.
  exists (fresh (dom h)), (<[fresh (dom h) := fr']> h), (map fin_point (map g P)).
  pose proof (fresh_ref_unused h) as Hfresh.
  split; [exact Ho |]. split; [exact Hfresh |]. split; [| split; [| split; [| split]]].
  - rewrite lookup_insert_ne; [exact Hdf |]. intros Heq. rewrite Heq in Hfresh.
    rewrite Hdf in Hfresh. discriminate.
  - intros r0 Hr0. by rewrite lookup_insert_ne.
  - exact Hpts.
  - by rewrite !length_map.
  - intros i p Hi. apply lookup_map_Some. by apply lookup_map_Some.
Qed.

(** C8: each of the three transforms, on the table of any point set and for
    any parameter, leaves every object of the store as it was, the input
    table among them, and returns a table that was not there before and whose
    transformed coordinates are as many as the input points, the i-th being
    the image of the i-th input point. *)
Theorem transforms_return_new_structure :
  forall (h : heap) (df : ref) (P : list point) (angle_degrees scale_factor : R),
    h !! df = Some (frame_of P) ->
    returns_new_structure h df P (twist_airfoil_ledge df angle_degrees h)
      "X_twisted" "Y_twisted" (rotate (radians angle_degrees)) /\
    returns_new_structure h df P (twist_airfoil_centroid df angle_degrees h)
      "X_twisted" "Y_twisted" (rotate_about (centroid P) (radians angle_degrees)) /\
    returns_new_structure h df P (scale_airfoil df scale_factor h)
      "X_scaled" "Y_scaled" (scale_about (centroid P) scale_factor).
Proof.
  intros h df P a s Hdf. split; [| split].
  - eapply returns_new_structure_intro; [exact Hdf | |].
    + apply (twist_airfoil_ledge_frame h df P Hdf).
    + apply (twist_airfoil_ledge_points h df P Hdf).
  - eapply returns_new_structure_intro; [exact Hdf | |].
    + apply (twist_airfoil_centroid_frame h df P Hdf).
    + apply (twist_airfoil_centroid_points h df P Hdf).
  - eapply returns_new_structure_intro; [exact Hdf | |].
    + apply (scale_airfoil_frame h df P Hdf).
    + apply (scale_airfoil_points h df P Hdf).
Qed.

Lemma transforms_return_new_structure_witness :
  ({[1%positive := frame_of unit_square]} : heap) !! 1%positive =
    Some (frame_of unit_square) /\
  returns_new_structure {[1%positive := frame_of unit_square]} 1%positive unit_square
    (scale_airfoil 1%positive 2.0 {[1%positive := frame_of unit_square]})
    "X_scaled" "Y_scaled" (scale_about (centroid unit_square) 2.0).
Proof.
  split; [apply lookup_singleton_eq |].
  refine (proj2 (proj2 (transforms_return_new_structure
                          {[1%positive := frame_of unit_square]} 1%positive
                          unit_square 0 2.0 _))).
  apply lookup_singleton_eq.
Defined.

(** ** The original columns in the result *)

Lemma keeps_original_intro (h : heap) (r : ref) (fr : DataFrame)
    (cx cy : string) (A B : Series) :
  cx <> "X" -> cx <> "Y" -> cy <> "X" -> cy <> "Y" -> cx <> cy ->
  keeps_original fr (Return r (<[r := <[cy := B]> (<[cx := A]> fr)]> h)) cx cy.
Proof.
  intros HxX HxY HyX HyY Hxy. unfold keeps_original, result_column.
  rewrite lookup_insert_eq.
  split; [| split; [| split; [| split]]].
  - by rewrite !lookup_insert_ne.
  - by rewrite !lookup_insert_ne.
  - intros c Hcx Hcy. by rewrite !lookup_insert_ne.
  - rewrite lookup_insert_ne by done. rewrite lookup_insert_eq. by eexists.
  - rewrite lookup_insert_eq. by eexists.
Qed.

(** C10: on any table that has [X] and [Y] columns, the table each transform
    returns still has the input's [X] and [Y] columns (and every other input
    column except the two result columns), unchanged, next to the result
    columns: [X_twisted] and [Y_twisted] for the two rotations, [X_scaled]
    and [Y_scaled] for the scaling. *)
Theorem original_columns_retained :
  forall (h : heap) (df : ref) (fr : DataFrame) (xs ys : Series)
         (angle_degrees scale_factor : R),
    h !! df = Some fr ->
    fr !! "X" = Some xs ->
    fr !! "Y" = Some ys ->
    keeps_original fr (twist_airfoil_ledge df angle_degrees h) "X_twisted" "Y_twisted" /\
    keeps_original fr (twist_airfoil_centroid df angle_degrees h) "X_twisted" "Y_twisted" /\
    keeps_original fr (scale_airfoil df scale_factor h) "X_scaled" "Y_scaled".
Proof.
  intros h df fr xs ys a s Hdf HX HY. split; [| split].
  - rewrite (twist_airfoil_ledge_run h df fr xs ys Hdf HX HY). cbn zeta.
    by apply keeps_original_intro.
  - rewrite (twist_airfoil_centroid_run h df fr xs ys Hdf HX HY). cbn zeta.
    by apply keeps_original_intro.
  - rewrite (scale_airfoil_run h df fr xs ys Hdf HX HY). cbn zeta.
    by apply keeps_original_intro.
Qed.

Lemma original_columns_retained_witness :
  ({[1%positive := frame_of unit_square]} : heap) !! 1%positive =
    Some (frame_of unit_square) /\
  keeps_original (frame_of unit_square)
    (twist_airfoil_ledge 1%positive 90 {[1%positive := frame_of unit_square]})
    "X_twisted" "Y_twisted".
Proof.
  split; [apply lookup_singleton_eq |].
  refine (proj1 (original_columns_retained
                   {[1%positive := frame_of unit_square]} 1%positive
                   (frame_of unit_square) _ _ 90 1 _ _ _)).
  - apply lookup_singleton_eq.
  - apply frame_of_X.
  - apply frame_of_Y.
Defined.

(** ** The sliders at start-up *)

Lemma value_in_bounds_angle : value_in_bounds (-180) 180 0 = 0.
Proof.
  unfold value_in_bounds.
  destruct (Rle_dec 0 (-180)) as [Hle | _]; [lra |].
  destruct (Rge_dec 0 180) as [Hge | _]; [lra | done].
Qed.

(** The scale slider is asked to start at 0, below its range; the slider
    starts at the lower end of the range instead. *)
Lemma value_in_bounds_scale : value_in_bounds 0.1 2.0 0 = 0.1.
Proof.
  unfold value_in_bounds.
  destruct (Rle_dec 0 0.1) as [_ | Hn]; [done | lra].
Qed.

Lemma update_plot_keeps_values (self : Plotting) (task : string) :
  val (angle_slider (fst (update_plot self task))) = val (angle_slider self) /\
  val (scale_slider (fst (update_plot self task))) = val (scale_slider self) /\
  valmin (scale_slider (fst (update_plot self task))) = valmin (scale_slider self) /\
  valmax (scale_slider (fst (update_plot self task))) = valmax (scale_slider self).
Proof.
  unfold update_plot.
  destruct (String.eqb task "Task 1: Twist by Leading Edge"); [done |].
  destruct (String.eqb task "Task 2: Scale"); done.
Qed.

(** C9: after [Plotting.__init__] the angle is 0 and the scale factor, which
    is not 1, lies in the range [0.1, 2.0] of its slider. *)
Theorem Plotting_init_defaults :
  forall (tasks : list string) (self : Plotting) (shown : drawing),
    Plotting_init tasks = Some (self, shown) ->
    val (angle_slider self) = 0 /\
    (val (scale_slider self) = 1 \/
     0.1 <= val (scale_slider self) <= 2.0) /\
    valmin (scale_slider self) = 0.1 /\
    valmax (scale_slider self) = 2.0.
Proof.
  intros tasks self shown Hinit. unfold Plotting_init in Hinit.
  destruct tasks as [|task tasks]; [discriminate |].
  injection Hinit as Hup.
  match type of Hup with update_plot ?s0 _ = _ =>
    destruct (update_plot_keeps_values s0 task) as (Ha & Hs & Hlo & Hhi) end.
  rewrite Hup in Ha, Hs, Hlo, Hhi. cbn [fst] in Ha, Hs, Hlo, Hhi.
  cbn [angle_slider scale_slider set_active Slider_init val valmin valmax]
    in Ha, Hs, Hlo, Hhi.
  rewrite value_in_bounds_angle in Ha. rewrite value_in_bounds_scale in Hs.
  rewrite Ha, Hs, Hlo, Hhi.
  split; [done |]. split; [right; lra | done].
Qed.

Lemma Plotting_init_defaults_witness :
  exists (self : Plotting) (shown : drawing),
    Plotting_init main_task_list = Some (self, shown) /\
    val (angle_slider self) = 0 /\
    valmin (scale_slider self) = 0.1.
Proof.
  exists (fst (update_plot
                 {| task_list := main_task_list;
                    angle_slider := set_active true (Slider_init (-180) 180 0);
                    scale_slider := set_active false (Slider_init 0.1 2.0 0) |}
                 "Task 1: Twist by Leading Edge")).
  exists (TwistLedge (value_in_bounds (-180) 180 0)).
  assert (Hinit : Plotting_init main_task_list =
    Some (fst (update_plot
                 {| task_list := main_task_list;
                    angle_slider := set_active true (Slider_init (-180) 180 0);
                    scale_slider := set_active false (Slider_init 0.1 2.0 0) |}
                 "Task 1: Twist by Leading Edge"),
          TwistLedge (value_in_bounds (-180) 180 0))) by reflexivity.
  split; [exact Hinit |].
  pose proof (Plotting_init_defaults _ _ _ Hinit) as (Ha & _ & Hlo & _).
  split; [exact Ha | exact Hlo].
Defined.

(** The default scale factor is the lower end of the range, not 1. *)
Lemma Plotting_init_scale_default (tasks : list string) (self : Plotting)
    (shown : drawing) :
  Plotting_init tasks = Some (self, shown) ->
  val (scale_slider self) = 0.1 /\ val (scale_slider self) <> 1.
Proof.
  intros Hinit. unfold Plotting_init in Hinit.
  destruct tasks as [|task tasks]; [discriminate |].
  injection Hinit as Hup.
  match type of Hup with update_plot ?s0 _ = _ =>
    destruct (update_plot_keeps_values s0 task) as (_ & Hs & _) end.
  rewrite Hup in Hs. cbn [fst] in Hs.
  cbn [scale_slider set_active Slider_init val] in Hs.
  rewrite value_in_bounds_scale in Hs. rewrite Hs. split; [done | lra].
Qed.

(** ** Missing columns *)

Lemma store_kept_by_copy (h : heap) (fr0 : DataFrame) (r : ref) (fr : DataFrame) :
  h !! r = Some fr -> <[fresh (dom h) := fr0]> h !! r = Some fr.
Proof.
  intros Hr. rewrite lookup_insert_ne; [exact Hr |].
  intros Heq. pose proof (fresh_ref_unused h) as Hfresh.
  rewrite Heq, Hr in Hfresh. discriminate.
Qed.

Lemma raises_KeyError_after_copy {A : Type} (o : outcome A) (k : string)
    (h : heap) (fr0 : DataFrame) :
  o = Raise (KeyError k) (<[fresh (dom h) := fr0]> h) ->
  raises_KeyError o k h.
Proof.
  intros Ho. exists (<[fresh (dom h) := fr0]> h). split; [exact Ho |].
  intros r fr Hr. by apply store_kept_by_copy.
Qed.

Section MissingColumn.
Variables (h : heap) (df : ref) (fr : DataFrame).
Hypothesis Hdf : h !! df = Some fr.

Lemma missing_X_run (a s : R) :
  fr !! "X" = None ->
  twist_airfoil_ledge df a h = Raise (KeyError "X") (<[fresh (dom h) := fr]> h) /\
  twist_airfoil_centroid df a h = Raise (KeyError "X") (<[fresh (dom h) := fr]> h) /\
  scale_airfoil df s h = Raise (KeyError "X") (<[fresh (dom h) := fr]> h).
Proof using Hdf.
  intros HX. split; [| split].
  - unfold twist_airfoil_ledge. py_simpl. rewrite (copy_run h df fr Hdf).
    by rewrite lookup_total_insert_eq, HX.
  - unfold twist_airfoil_centroid. py_simpl. rewrite (copy_run h df fr Hdf).
    by rewrite lookup_total_insert_eq, HX.
  - unfold scale_airfoil. py_simpl. rewrite (copy_run h df fr Hdf).
    by rewrite lookup_total_insert_eq, HX.
Qed.

Lemma missing_Y_run (xs : Series) (a s : R) :
  fr !! "X" = Some xs ->
  fr !! "Y" = None ->
  twist_airfoil_ledge df a h = Raise (KeyError "Y") (<[fresh (dom h) := fr]> h) /\
  twist_airfoil_centroid df a h = Raise (KeyError "Y") (<[fresh (dom h) := fr]> h) /\
  scale_airfoil df s h = Raise (KeyError "Y") (<[fresh (dom h) := fr]> h).
Proof using Hdf.
  intros HX HY. split; [| split].
  - unfold twist_airfoil_ledge. py_simpl. rewrite (copy_run h df fr Hdf).
    repeat (rewrite ?lookup_total_insert_eq, ?HX, ?HY; cbn beta iota). done.
  - unfold twist_airfoil_centroid. py_simpl. rewrite (copy_run h df fr Hdf).
    repeat (rewrite ?lookup_total_insert_eq, ?HX, ?HY; cbn beta iota). done.
  - unfold scale_airfoil. py_simpl. rewrite (copy_run h df fr Hdf).
    repeat (rewrite ?lookup_total_insert_eq, ?HX, ?HY; cbn beta iota). done.
Qed.
End MissingColumn.

(** X1: on a table without an [X] column each of the three transforms ends
    with [KeyError "X"], whatever else the table holds, and no object of the
    store has been changed. *)
Theorem transforms_without_X_raise_KeyError :
  forall (h : heap) (df : ref) (fr : DataFrame) (angle_degrees scale_factor : R),
    h !! df = Some fr ->
    fr !! "X" = None ->
    raises_KeyError (twist_airfoil_ledge df angle_degrees h) "X" h /\
    raises_KeyError (twist_airfoil_centroid df angle_degrees h) "X" h /\
    raises_KeyError (scale_airfoil df scale_factor h) "X" h.
Proof.
  intros h df fr a s Hdf HX.
  destruct (missing_X_run h df fr Hdf a s HX) as (H1 & H2 & H3).
  split; [| split]; eapply raises_KeyError_after_copy; eassumption.
Qed.

Lemma transforms_without_X_raise_KeyError_witness :
  ({[1%positive := ({["Y" := [Fin 0]]} : DataFrame)]} : heap) !! 1%positive =
    Some ({["Y" := [Fin 0]]} : DataFrame) /\
  ({["Y" := [Fin 0]]} : DataFrame) !! "X" = None /\
  raises_KeyError
    (scale_airfoil 1%positive 2 {[1%positive := ({["Y" := [Fin 0]]} : DataFrame)]})
    "X" {[1%positive := ({["Y" := [Fin 0]]} : DataFrame)]}.
Proof.
  split; [apply lookup_singleton_eq |]. split; [by apply lookup_singleton_ne |].
  refine (proj2 (proj2 (transforms_without_X_raise_KeyError
                          {[1%positive := ({["Y" := [Fin 0]]} : DataFrame)]}
                          1%positive {["Y" := [Fin 0]]} 0 2 _ _))).
  - apply lookup_singleton_eq.
  - by apply lookup_singleton_ne.
Defined.

(** X2: on a table with an [X] column but without a [Y] column each of the
    three transforms ends with [KeyError "Y"], and no object of the store
    has been changed. *)
Theorem transforms_without_Y_raise_KeyError :
  forall (h : heap) (df : ref) (fr : DataFrame) (xs : Series)
         (angle_degrees scale_factor : R),
    h !! df = Some fr ->
    fr !! "X" = Some xs ->
    fr !! "Y" = None ->
    raises_KeyError (twist_airfoil_ledge df angle_degrees h) "Y" h /\
    raises_KeyError (twist_airfoil_centroid df angle_degrees h) "Y" h /\
    raises_KeyError (scale_airfoil df scale_factor h) "Y" h.
Proof.
  intros h df fr xs a s Hdf HX HY.
  destruct (missing_Y_run h df fr Hdf xs a s HX HY) as (H1 & H2 & H3).
  split; [| split]; eapply raises_KeyError_after_copy; eassumption.
Qed.

Lemma transforms_without_Y_raise_KeyError_witness :
  ({[1%positive := ({["X" := [Fin 0]]} : DataFrame)]} : heap) !! 1%positive =
    Some ({["X" := [Fin 0]]} : DataFrame) /\
  ({["X" := [Fin 0]]} : DataFrame) !! "X" = Some [Fin 0] /\
  ({["X" := [Fin 0]]} : DataFrame) !! "Y" = None /\
  raises_KeyError
    (twist_airfoil_ledge 1%positive 90 {[1%positive := ({["X" := [Fin 0]]} : DataFrame)]})
    "Y" {[1%positive := ({["X" := [Fin 0]]} : DataFrame)]}.
Proof.
  split; [apply lookup_singleton_eq |]. split; [apply lookup_singleton_eq |].
  split; [by apply lookup_singleton_ne |].
  refine (proj1 (transforms_without_Y_raise_KeyError
                   {[1%positive := ({["X" := [Fin 0]]} : DataFrame)]}
                   1%positive {["X" := [Fin 0]]} [Fin 0] 90 2 _ _ _)).
  - apply lookup_singleton_eq.
  - apply lookup_singleton_eq.
  - by apply lookup_singleton_ne.
Defined.

(** ** More geometry of the plane maps *)

Lemma radians_plus (a b : R) : radians (a + b) = radians a + radians b.
Proof. unfold radians. ring. Qed.


Lemma radians_180 : radians 180 = PI.
Proof. unfold radians. field. Qed.

Lemma rotate_add (a b : R) (p : point) : rotate b (rotate a p) = rotate (a + b) p.
Proof.
  destruct p as [x y]. unfold rotate, mat_vec, rot. cbn [fst snd].
  rewrite cos_plus, sin_plus. f_equal; ring.
Qed.


Lemma rotate_half_turn (p : point) : rotate PI p = (- fst p, - snd p).
Proof.
  destruct p as [x y]. unfold rotate, mat_vec, rot. cbn [fst snd].
  rewrite cos_PI, sin_PI. f_equal; ring.
Qed.

Lemma rotate_half_turn_back (p : point) : rotate (- PI) p = (- fst p, - snd p).
Proof.
  destruct p as [x y]. unfold rotate, mat_vec, rot. cbn [fst snd].
  rewrite cos_neg, sin_neg, cos_PI, sin_PI. f_equal; ring.
Qed.

Lemma sqdist_rotate (theta : R) (p q : point) :
  sqdist (rotate theta p) (rotate theta q) = sqdist p q.
Proof.
  destruct p as [x y], q as [u v]. unfold sqdist, rotate, mat_vec, rot.
  cbn [fst snd]. pose proof (sin2_cos2 theta) as Hsc. unfold Rsqr in Hsc.
  transitivity (((x - u) * (x - u) + (y - v) * (y - v)) *
                (sin theta * sin theta + cos theta * cos theta)); [ring |].
  rewrite Hsc. ring.
Qed.

Lemma sqdist_rotate_about (c : point) (theta : R) (p q : point) :
  sqdist (rotate_about c theta p) (rotate_about c theta q) = sqdist p q.
Proof.
  transitivity (sqdist (rotate theta (fst p - fst c, snd p - snd c))
                       (rotate theta (fst q - fst c, snd q - snd c))).
  - unfold rotate_about, sqdist. cbn [fst snd]. ring.
  - rewrite sqdist_rotate. unfold sqdist. cbn [fst snd]. ring.
Qed.

Lemma sqdist_scale_about (c : point) (s : R) (p q : point) :
  sqdist (scale_about c s p) (scale_about c s q) = s * s * sqdist p q.
Proof. unfold sqdist, scale_about. cbn [fst snd]. ring. Qed.

Lemma scale_about_compose (c : point) (s t : R) (p : point) :
  scale_about c t (scale_about c s p) = scale_about c (s * t) p.
Proof. unfold scale_about. cbn [fst snd]. f_equal; ring. Qed.

Lemma rotate_about_back (c : point) (theta : R) (p : point) :
  rotate_about c (- theta) (rotate_about c theta p) = p.
Proof.
  destruct p as [x y]. unfold rotate_about. cbn [fst snd].
  replace (fst (rotate theta (x - fst c, y - snd c)) + fst c - fst c,
           snd (rotate theta (x - fst c, y - snd c)) + snd c - snd c)
    with (rotate theta (x - fst c, y - snd c)).
  - rewrite rotate_back. cbn [fst snd]. f_equal; ring.
  - destruct (rotate theta (x - fst c, y - snd c)) as [u v]. cbn [fst snd].
    f_equal; ring.
Qed.

Lemma rotate_about_translation (c : point) (theta : R) (p : point) :
  rotate_about c theta p =
    (fst (rotate theta p) + (fst c - fst (rotate theta c)),
     snd (rotate theta p) + (snd c - snd (rotate theta c))).
Proof.
  destruct p as [x y], c as [cx cy].
  unfold rotate_about, rotate, mat_vec, rot. cbn [fst snd]. f_equal; ring.
Qed.

(** The centroid of the images under an affine map is the image of the
    centroid. *)
Lemma centroid_affine (g : point -> point) (P : list point)
    (a0 a1 a2 b0 b1 b2 : R) :
  P <> [] ->
  (forall p, fst (g p) = a0 + a1 * fst p + a2 * snd p) ->
  (forall p, snd (g p) = b0 + b1 * fst p + b2 * snd p) ->
  centroid (map g P) = g (centroid P).
Proof.
  intros HP Hx Hy. pose proof (length_INR_nonzero P HP) as Hn.
  rewrite (surjective_pairing (g (centroid P))), Hx, Hy.
  unfold centroid. rewrite !map_map, length_map.
  rewrite (Rsum_linear (fun p => fst (g p)) fst snd a0 a1 a2 P Hx).
  rewrite (Rsum_linear (fun p => snd (g p)) fst snd b0 b1 b2 P Hy).
  cbn [fst snd]. f_equal; by field.
Qed.

Lemma centroid_rotate (theta : R) (P : list point) :
  P <> [] -> centroid (map (rotate theta) P) = rotate theta (centroid P).
Proof.
  intros HP.
  apply (centroid_affine _ P 0 (cos theta) (- sin theta) 0 (sin theta) (cos theta) HP).
  - intros p. unfold rotate, mat_vec, rot. cbn [fst snd]. ring.
  - intros p. unfold rotate, mat_vec, rot. cbn [fst snd]. ring.
Qed.

Lemma centroid_scale_about (P : list point) (s : R) :
  P <> [] -> centroid (map (scale_about (centroid P) s) P) = centroid P.
Proof.
  intros HP. set (c := centroid P).
  rewrite (centroid_affine (scale_about c s) P
             (fst c - fst c * s) s 0 (snd c - snd c * s) 0 s HP).
  - apply scale_about_fix.
  - intros p. unfold scale_about. cbn [fst snd]. ring.
  - intros p. unfold scale_about. cbn [fst snd]. ring.
Qed.

Lemma centroid_rotate_about (P : list point) (theta : R) :
  P <> [] -> centroid (map (rotate_about (centroid P) theta) P) = centroid P.
Proof.
  intros HP. set (c := centroid P).
  rewrite (centroid_affine (rotate_about c theta) P
             (fst c - cos theta * fst c + sin theta * snd c) (cos theta) (- sin theta)
             (snd c - sin theta * fst c - cos theta * snd c) (sin theta) (cos theta) HP).
  - apply rotate_about_fix.
  - intros p. unfold rotate_about, rotate, mat_vec, rot. cbn [fst snd]. ring.
  - intros p. unfold rotate_about, rotate, mat_vec, rot. cbn [fst snd]. ring.
Qed.

Lemma centroid_singleton (p : point) : centroid [p] = p.
Proof.
  destruct p as [x y]. unfold centroid. cbn [map fst snd Rsum length INR].
  f_equal; field.
Qed.

(** ** Composing and undoing the transforms *)

(** X3: twisting about the leading edge by [a] and then twisting the
    resulting points by [b] gives what one twist by [a + b] gives. *)
Theorem twist_airfoil_ledge_angles_add :
  forall (h : heap) (df : ref) (P : list point) (a b : R)
         (Q : list point) (h2 : heap) (df2 : ref),
    h !! df = Some (frame_of P) ->
    result_points (twist_airfoil_ledge df a h) "X_twisted" "Y_twisted" =
      Some (map fin_point Q) ->
    h2 !! df2 = Some (frame_of Q) ->
    result_points (twist_airfoil_ledge df2 b h2) "X_twisted" "Y_twisted" =
      result_points (twist_airfoil_ledge df (a + b) h) "X_twisted" "Y_twisted".
Proof.
  intros h df P a b Q h2 df2 Hdf Hrun Hdf2.
  rewrite (twist_airfoil_ledge_points h df P Hdf) in Hrun.
  injection Hrun as HQ. apply fin_points_inj in HQ. subst Q.
  rewrite (twist_airfoil_ledge_points h2 df2 _ Hdf2).
  rewrite (twist_airfoil_ledge_points h df P Hdf).
  rewrite radians_plus. do 2 f_equal. rewrite map_map.
  apply map_ext. intros p. apply rotate_add.
Qed.

Lemma twist_airfoil_ledge_angles_add_witness :
  ({[1%positive := frame_of [(1, 0)]]} : heap) !! 1%positive =
    Some (frame_of [(1, 0)]) /\
  result_points
    (twist_airfoil_ledge 1%positive 90 {[1%positive := frame_of [(1, 0)]]})
    "X_twisted" "Y_twisted" = Some (map fin_point [(0, 1)]) /\
  ({[2%positive := frame_of [(0, 1)]]} : heap) !! 2%positive =
    Some (frame_of [(0, 1)]) /\
  result_points
    (twist_airfoil_ledge 2%positive 30 {[2%positive := frame_of [(0, 1)]]})
    "X_twisted" "Y_twisted" =
  result_points
    (twist_airfoil_ledge 1%positive (90 + 30) {[1%positive := frame_of [(1, 0)]]})
    "X_twisted" "Y_twisted".
Proof.
  assert (H1 : ({[1%positive := frame_of [(1, 0)]]} : heap) !! 1%positive =
               Some (frame_of [(1, 0)])) by apply lookup_singleton_eq.
  assert (H2 : ({[2%positive := frame_of [(0, 1)]]} : heap) !! 2%positive =
               Some (frame_of [(0, 1)])) by apply lookup_singleton_eq.
  assert (Hrun : result_points
            (twist_airfoil_ledge 1%positive 90 {[1%positive := frame_of [(1, 0)]]})
            "X_twisted" "Y_twisted" = Some (map fin_point [(0, 1)])).
  { rewrite (twist_airfoil_ledge_points _ _ _ H1), radians_90. cbn [map].
    rewrite rotate_quarter. unfold quarter_turn_anticlockwise, fin_point.
    cbn [fst snd]. repeat f_equal; ring. }
  split; [exact H1 |]. split; [exact Hrun |]. split; [exact H2 |].
  exact (twist_airfoil_ledge_angles_add _ _ _ _ _ _ _ _ H1 Hrun H2).
Defined.



(** X5: over exact arithmetic, at the two ends of the angle slider, 180 and
    -180 degrees, both twists are the point reflection through their centre:
    the leading-edge twist sends (x, y) to (-x, -y), the centroid twist
    sends p to 2 * centroid - p. *)
Theorem twists_at_slider_ends_reflect :
  forall (h : heap) (df : ref) (P : list point) (a : R),
    h !! df = Some (frame_of P) ->
    a = 180 \/ a = -180 ->
    result_points (twist_airfoil_ledge df a h) "X_twisted" "Y_twisted" =
      Some (map fin_point (map (fun p => (- fst p, - snd p)) P)) /\
    result_points (twist_airfoil_centroid df a h) "X_twisted" "Y_twisted" =
      Some (map fin_point (map (reflect_through (centroid P)) P)).
Proof.
  intros h df P a Hdf Ha.
  assert (Hrot : forall p, rotate (radians a) p = (- fst p, - snd p)).
  { intros p. destruct Ha as [-> | ->].
    - rewrite radians_180. apply rotate_half_turn.
    - replace (-180) with (- (180)) by ring.
      rewrite radians_opp, radians_180. apply rotate_half_turn_back. }
  split.
  - rewrite (twist_airfoil_ledge_points h df P Hdf). do 2 f_equal.
    apply map_ext. exact Hrot.
  - rewrite (twist_airfoil_centroid_points h df P Hdf). do 2 f_equal.
    apply map_ext. intros p. unfold rotate_about, reflect_through.
    rewrite Hrot. cbn [fst snd]. f_equal; ring.
Qed.

Lemma twists_at_slider_ends_reflect_witness :
  ({[1%positive := frame_of unit_square]} : heap) !! 1%positive =
    Some (frame_of unit_square) /\
  (180 = 180 \/ 180 = -180) /\
  result_points
    (twist_airfoil_ledge 1%positive 180 {[1%positive := frame_of unit_square]})
    "X_twisted" "Y_twisted" =
    Some (map fin_point (map (fun p => (- fst p, - snd p)) unit_square)).
Proof.
  split; [apply lookup_singleton_eq |]. split; [by left |].
  refine (proj1 (twists_at_slider_ends_reflect
                   {[1%positive := frame_of unit_square]} 1%positive
                   unit_square 180 _ _)).
  - apply lookup_singleton_eq.
  - by left.
Defined.

(** ** Distances between the transformed points *)

Lemma rows_satisfy_intro (P : list point) (o : outcome ref) (cx cy : string)
    (g : point -> point) (Rel : point -> point -> point -> point -> Prop) :
  result_points o cx cy = Some (map fin_point (map g P)) ->
  (forall p q, Rel p q (g p) (g q)) ->
  rows_satisfy P o cx cy Rel.
Proof.
  intros Ho Hrel. exists (map fin_point (map g P)).
  split; [exact Ho |]. split; [by rewrite !length_map |].
  intros i j p q Hi Hj. exists (g p), (g q).
  split; [| split].
  - apply lookup_map_Some. by apply lookup_map_Some.
  - apply lookup_map_Some. by apply lookup_map_Some.
  - apply Hrel.
Qed.

(** X6: over exact arithmetic both twists keep the distance between any two
    points of the point set: rows [i] and [j] of the twisted coordinates are
    as far apart as rows [i] and [j] of the input. *)
Theorem twists_preserve_distances :
  forall (h : heap) (df : ref) (P : list point) (a : R),
    h !! df = Some (frame_of P) ->
    rows_satisfy P (twist_airfoil_ledge df a h) "X_twisted" "Y_twisted"
      (fun p q p' q' => sqdist p' q' = sqdist p q) /\
    rows_satisfy P (twist_airfoil_centroid df a h) "X_twisted" "Y_twisted"
      (fun p q p' q' => sqdist p' q' = sqdist p q).
Proof.
  intros h df P a Hdf. split.
  - apply (rows_satisfy_intro P _ _ _ (rotate (radians a))).
    + apply (twist_airfoil_ledge_points h df P Hdf).
    + intros p q. apply sqdist_rotate.
  - apply (rows_satisfy_intro P _ _ _ (rotate_about (centroid P) (radians a))).
    + apply (twist_airfoil_centroid_points h df P Hdf).
    + intros p q. apply sqdist_rotate_about.
Qed.

Lemma twists_preserve_distances_witness :
  ({[1%positive := frame_of unit_square]} : heap) !! 1%positive =
    Some (frame_of unit_square) /\
  rows_satisfy unit_square
    (twist_airfoil_centroid 1%positive 45 {[1%positive := frame_of unit_square]})
    "X_twisted" "Y_twisted" (fun p q p' q' => sqdist p' q' = sqdist p q).
Proof.
  split; [apply lookup_singleton_eq |].
  refine (proj2 (twists_preserve_distances
                   {[1%positive := frame_of unit_square]} 1%positive
                   unit_square 45 _)).
  apply lookup_singleton_eq.
Defined.

(** X7: over exact arithmetic scaling multiplies the distance between any
    two points by the absolute value of the factor: the squared distance
    between rows [i] and [j] of the scaled coordinates is [s * s] times that
    of the input. *)
Theorem scale_airfoil_scales_distances :
  forall (h : heap) (df : ref) (P : list point) (s : R),
    h !! df = Some (frame_of P) ->
    rows_satisfy P (scale_airfoil df s h) "X_scaled" "Y_scaled"
      (fun p q p' q' => sqdist p' q' = s * s * sqdist p q).
Proof.
  intros h df P s Hdf.
  apply (rows_satisfy_intro P _ _ _ (scale_about (centroid P) s)).
  - apply (scale_airfoil_points h df P Hdf).
  - intros p q. apply sqdist_scale_about.
Qed.

Lemma scale_airfoil_scales_distances_witness :
  ({[1%positive := frame_of unit_square]} : heap) !! 1%positive =
    Some (frame_of unit_square) /\
  rows_satisfy unit_square
    (scale_airfoil 1%positive 2 {[1%positive := frame_of unit_square]})
    "X_scaled" "Y_scaled" (fun p q p' q' => sqdist p' q' = 2 * 2 * sqdist p q).
Proof.
  split; [apply lookup_singleton_eq |].
  apply (scale_airfoil_scales_distances
           {[1%positive := frame_of unit_square]} 1%positive unit_square 2).
  apply lookup_singleton_eq.
Defined.

(** ** Chains of centroid-based transforms *)

(** X8: over exact arithmetic a twist about the centroid is undone by the
    twist about the centroid with the opposite angle, applied to the
    resulting points. *)
Theorem twist_airfoil_centroid_opposite_angle :
  forall (h : heap) (df : ref) (P : list point) (a : R)
         (Q : list point) (h2 : heap) (df2 : ref),
    h !! df = Some (frame_of P) ->
    result_points (twist_airfoil_centroid df a h) "X_twisted" "Y_twisted" =
      Some (map fin_point Q) ->
    h2 !! df2 = Some (frame_of Q) ->
    result_points (twist_airfoil_centroid df2 (- a) h2) "X_twisted" "Y_twisted" =
      Some (map fin_point P).
Proof.
  intros h df P a Q h2 df2 Hdf Hrun Hdf2.
  rewrite (twist_airfoil_centroid_points h df P Hdf) in Hrun.
  injection Hrun as HQ. apply fin_points_inj in HQ. subst Q.
  rewrite (twist_airfoil_centroid_points h2 df2 _ Hdf2).
  destruct (decide (P = [])) as [-> | HP]; [done |].
  rewrite (centroid_rotate_about P (radians a) HP).
  rewrite radians_opp. do 2 f_equal. rewrite map_map.
  apply map_id_ext. intros p. apply rotate_about_back.
Qed.

Lemma scale_then_scale (P : list point) (s t : R) :
  map (scale_about (centroid (map (scale_about (centroid P) s) P)) t)
      (map (scale_about (centroid P) s) P) =
  map (scale_about (centroid P) (s * t)) P.
Proof.
  destruct (decide (P = [])) as [-> | HP]; [done |].
  rewrite (centroid_scale_about P s HP), map_map.
  apply map_ext. intros p. apply scale_about_compose.
Qed.

(** X9: over exact arithmetic scaling by [s] and then scaling the resulting
    points by [t] gives what one scaling by [s * t] gives. *)
Theorem scale_airfoil_factors_multiply :
  forall (h : heap) (df : ref) (P : list point) (s t : R)
         (Q : list point) (h2 : heap) (df2 : ref),
    h !! df = Some (frame_of P) ->
    result_points (scale_airfoil df s h) "X_scaled" "Y_scaled" =
      Some (map fin_point Q) ->
    h2 !! df2 = Some (frame_of Q) ->
    result_points (scale_airfoil df2 t h2) "X_scaled" "Y_scaled" =
      result_points (scale_airfoil df (s * t) h) "X_scaled" "Y_scaled".
Proof.
  intros h df P s t Q h2 df2 Hdf Hrun Hdf2.
  rewrite (scale_airfoil_points h df P Hdf) in Hrun.
  injection Hrun as HQ. apply fin_points_inj in HQ. subst Q.
  rewrite (scale_airfoil_points h2 df2 _ Hdf2).
  rewrite (scale_airfoil_points h df P Hdf).
  by rewrite scale_then_scale.
Qed.

Lemma scale_unit_square_by_2 (h : heap) (df : ref) :
  h !! df = Some (frame_of unit_square) ->
  result_points (scale_airfoil df 2 h) "X_scaled" "Y_scaled" =
    Some (map fin_point [(-0.5, -0.5); (1.5, -0.5); (1.5, 1.5); (-0.5, 1.5)]).
Proof.
  intros Hdf. rewrite (scale_airfoil_points h df _ Hdf).
  rewrite centroid_unit_square. unfold unit_square, scale_about, fin_point.
  cbn [map fst snd]. repeat f_equal; lra.
Qed.

Lemma scale_airfoil_factors_multiply_witness :
  ({[1%positive := frame_of unit_square]} : heap) !! 1%positive =
    Some (frame_of unit_square) /\
  result_points
    (scale_airfoil 1%positive 2 {[1%positive := frame_of unit_square]})
    "X_scaled" "Y_scaled" =
    Some (map fin_point [(-0.5, -0.5); (1.5, -0.5); (1.5, 1.5); (-0.5, 1.5)]) /\
  ({[2%positive := frame_of [(-0.5, -0.5); (1.5, -0.5); (1.5, 1.5); (-0.5, 1.5)]]} : heap)
    !! 2%positive =
    Some (frame_of [(-0.5, -0.5); (1.5, -0.5); (1.5, 1.5); (-0.5, 1.5)]) /\
  result_points
    (scale_airfoil 2%positive 3
       {[2%positive := frame_of [(-0.5, -0.5); (1.5, -0.5); (1.5, 1.5); (-0.5, 1.5)]]})
    "X_scaled" "Y_scaled" =
  result_points
    (scale_airfoil 1%positive (2 * 3) {[1%positive := frame_of unit_square]})
    "X_scaled" "Y_scaled".
Proof.
  assert (H1 : ({[1%positive := frame_of unit_square]} : heap) !! 1%positive =
               Some (frame_of unit_square)) by apply lookup_singleton_eq.
  pose proof (scale_unit_square_by_2 _ _ H1) as Hrun.
  assert (H2 : ({[2%positive :=
                    frame_of [(-0.5, -0.5); (1.5, -0.5); (1.5, 1.5); (-0.5, 1.5)]]} : heap)
                 !! 2%positive =
               Some (frame_of [(-0.5, -0.5); (1.5, -0.5); (1.5, 1.5); (-0.5, 1.5)]))
    by apply lookup_singleton_eq.
  split; [exact H1 |]. split; [exact Hrun |]. split; [exact H2 |].
  exact (scale_airfoil_factors_multiply _ _ _ _ _ _ _ _ H1 Hrun H2).
Defined.

(** X10: over exact arithmetic, for a factor [s] other than 0, scaling is
    undone by scaling the resulting points by [1 / s]. *)
Theorem scale_airfoil_inverse_factor :
  forall (h : heap) (df : ref) (P : list point) (s : R)
         (Q : list point) (h2 : heap) (df2 : ref),
    s <> 0 ->
    h !! df = Some (frame_of P) ->
    result_points (scale_airfoil df s h) "X_scaled" "Y_scaled" =
      Some (map fin_point Q) ->
    h2 !! df2 = Some (frame_of Q) ->
    result_points (scale_airfoil df2 (1 / s) h2) "X_scaled" "Y_scaled" =
      Some (map fin_point P).
Proof.
  intros h df P s Q h2 df2 Hs Hdf Hrun Hdf2.
  rewrite (scale_airfoil_points h df P Hdf) in Hrun.
  injection Hrun as HQ. apply fin_points_inj in HQ. subst Q.
  rewrite (scale_airfoil_points h2 df2 _ Hdf2).
  rewrite scale_then_scale. replace (s * (1 / s)) with 1 by (by field).
  do 2 f_equal. apply map_id_ext. intros p. apply scale_about_1.
Qed.

Lemma scale_airfoil_inverse_factor_witness :
  (2 <> 0) /\
  ({[1%positive := frame_of unit_square]} : heap) !! 1%positive =
    Some (frame_of unit_square) /\
  result_points
    (scale_airfoil 2%positive (1 / 2)
       {[2%positive := frame_of [(-0.5, -0.5); (1.5, -0.5); (1.5, 1.5); (-0.5, 1.5)]]})
    "X_scaled" "Y_scaled" = Some (map fin_point unit_square).
Proof.
  assert (H0 : 2 <> 0) by lra.
  assert (H1 : ({[1%positive := frame_of unit_square]} : heap) !! 1%positive =
               Some (frame_of unit_square)) by apply lookup_singleton_eq.
  pose proof (scale_unit_square_by_2 _ _ H1) as Hrun.
  assert (H2 : ({[2%positive :=
                    frame_of [(-0.5, -0.5); (1.5, -0.5); (1.5, 1.5); (-0.5, 1.5)]]} : heap)
                 !! 2%positive =
               Some (frame_of [(-0.5, -0.5); (1.5, -0.5); (1.5, 1.5); (-0.5, 1.5)]))
    by apply lookup_singleton_eq.
  split; [exact H0 |]. split; [exact H1 |].
  exact (scale_airfoil_inverse_factor _ _ _ _ _ _ _ H0 H1 Hrun H2).
Defined.

(** ** The centroid under the leading-edge twist, and the two twists compared *)

Lemma mean_cols (g : point -> point) (P : list point) :
  P <> [] ->
  mean (xcol g P) = Fin (fst (centroid (map g P))) /\
  mean (ycol g P) = Fin (snd (centroid (map g P))).
Proof.
  intros HP. unfold xcol, ycol.
  rewrite (mean_fin (fun p => fst (g p)) P HP), (mean_fin (fun p => snd (g p)) P HP).
  unfold centroid. cbn [fst snd]. by rewrite !map_map, length_map.
Qed.

(** X11: over exact arithmetic the leading-edge twist turns the centroid
    with the points: for a non-empty point set the centroid of the twisted
    coordinates is the centroid of the input rotated by the same angle about
    (0,0). *)
Theorem twist_airfoil_ledge_rotates_centroid :
  forall (h : heap) (df : ref) (P : list point) (a : R),
    h !! df = Some (frame_of P) ->
    P <> [] ->
    result_centroid (twist_airfoil_ledge df a h) "X_twisted" "Y_twisted" =
      Some (fin_point (rotate (radians a) (centroid P))).
Proof.
  intros h df P a Hdf HP.
  rewrite (twist_airfoil_ledge_frame h df P Hdf). unfold result_centroid, table_centroid.
  rewrite lookup_insert_eq, lookup_insert_eq.
  rewrite lookup_insert_ne by done. rewrite lookup_insert_eq.
  destruct (mean_cols (rotate (radians a)) P HP) as [-> ->].
  by rewrite (centroid_rotate (radians a) P HP).
Qed.

Lemma twist_airfoil_ledge_rotates_centroid_witness :
  ({[1%positive := frame_of unit_square]} : heap) !! 1%positive =
    Some (frame_of unit_square) /\
  unit_square <> [] /\
  result_centroid
    (twist_airfoil_ledge 1%positive 90 {[1%positive := frame_of unit_square]})
    "X_twisted" "Y_twisted" =
    Some (fin_point (rotate (radians 90) (centroid unit_square))).
Proof.
  split; [apply lookup_singleton_eq |]. split; [discriminate |].
  apply (twist_airfoil_ledge_rotates_centroid
           {[1%positive := frame_of unit_square]} 1%positive unit_square 90).
  - apply lookup_singleton_eq.
  - discriminate.
Defined.

(** X12: over exact arithmetic the two twists give the same shape in two
    places: every point twisted about the centroid is the point twisted
    about the leading edge, shifted by centroid - (centroid twisted about
    the leading edge); so the two twists agree when the centroid is (0,0). *)
Theorem twists_differ_by_translation :
  forall (h : heap) (df : ref) (P : list point) (a : R),
    h !! df = Some (frame_of P) ->
    rows_satisfy P (twist_airfoil_centroid df a h) "X_twisted" "Y_twisted"
      (fun p _ p' _ =>
         p' = (fst (rotate (radians a) p) +
                 (fst (centroid P) - fst (rotate (radians a) (centroid P))),
               snd (rotate (radians a) p) +
                 (snd (centroid P) - snd (rotate (radians a) (centroid P))))) /\
    (centroid P = (0, 0) ->
     result_points (twist_airfoil_centroid df a h) "X_twisted" "Y_twisted" =
       result_points (twist_airfoil_ledge df a h) "X_twisted" "Y_twisted").
Proof.
  intros h df P a Hdf. split.
  - apply (rows_satisfy_intro P _ _ _ (rotate_about (centroid P) (radians a))).
    + apply (twist_airfoil_centroid_points h df P Hdf).
    + intros p q. apply rotate_about_translation.
  - intros Hc. rewrite (twist_airfoil_centroid_points h df P Hdf).
    rewrite (twist_airfoil_ledge_points h df P Hdf). rewrite Hc.
    do 2 f_equal. apply map_ext. intros [x y].
    unfold rotate_about, rotate, mat_vec, rot. cbn [fst snd]. f_equal; ring.
Qed.

Lemma centroid_symmetric_pair : centroid [(1, 0); (-1, 0)] = (0, 0).
Proof.
  unfold centroid. cbn [map fst snd Rsum length].
  rewrite INR_IZR_INZ. cbn [Z.of_nat Pos.of_succ_nat Pos.succ]. f_equal; lra.
Qed.

Lemma twists_differ_by_translation_witness :
  ({[1%positive := frame_of [(1, 0); (-1, 0)]]} : heap) !! 1%positive =
    Some (frame_of [(1, 0); (-1, 0)]) /\
  centroid [(1, 0); (-1, 0)] = (0, 0) /\
  result_points
    (twist_airfoil_centroid 1%positive 30 {[1%positive := frame_of [(1, 0); (-1, 0)]]})
    "X_twisted" "Y_twisted" =
  result_points
    (twist_airfoil_ledge 1%positive 30 {[1%positive := frame_of [(1, 0); (-1, 0)]]})
    "X_twisted" "Y_twisted".
Proof.
  split; [apply lookup_singleton_eq |]. split; [exact centroid_symmetric_pair |].
  refine (proj2 (twists_differ_by_translation
                   {[1%positive := frame_of [(1, 0); (-1, 0)]]} 1%positive
                   [(1, 0); (-1, 0)] 30 _) _).
  - apply lookup_singleton_eq.
  - exact centroid_symmetric_pair.
Defined.

(** X13: a point set of one point is its own centroid, so the twist about
    the centroid, for any angle, and the scaling, for any factor, return
    that point unchanged. *)
Theorem single_point_is_fixed :
  forall (h : heap) (df : ref) (p : point) (a s : R),
    h !! df = Some (frame_of [p]) ->
    result_points (twist_airfoil_centroid df a h) "X_twisted" "Y_twisted" =
      Some [fin_point p] /\
    result_points (scale_airfoil df s h) "X_scaled" "Y_scaled" =
      Some [fin_point p].
Proof.
  intros h df p a s Hdf. split.
  - rewrite (twist_airfoil_centroid_points h df [p] Hdf). cbn [map].
    by rewrite centroid_singleton, rotate_about_fix.
  - rewrite (scale_airfoil_points h df [p] Hdf). cbn [map].
    by rewrite centroid_singleton, scale_about_fix.
Qed.

Lemma single_point_is_fixed_witness :
  ({[1%positive := frame_of [(3, 4)]]} : heap) !! 1%positive =
    Some (frame_of [(3, 4)]) /\
  result_points
    (scale_airfoil 1%positive 0 {[1%positive := frame_of [(3, 4)]]})
    "X_scaled" "Y_scaled" = Some [fin_point (3, 4)].
Proof.
  split; [apply lookup_singleton_eq |].
  refine (proj2 (single_point_is_fixed
                   {[1%positive := frame_of [(3, 4)]]} 1%positive (3, 4) 0 0 _)).
  apply lookup_singleton_eq.
Defined.

(** ** Tables with missing cells, and tables that already hold results *)

(** Goals [u = NaN <-> a = NaN \/ b = NaN] over explicit constructors. *)
Ltac nan_cases :=
  split;
  [ intros Hn; first [discriminate Hn | by left | by right]
  | intros [Hn | Hn]; first [discriminate Hn | reflexivity] ].

Lemma lookup_combine_Some {A B : Type} (l : list A) (k : list B) (i : nat)
    (a : A) (b : B) :
  l !! i = Some a -> k !! i = Some b -> combine l k !! i = Some (a, b).
Proof.
  revert k i. induction l as [|a0 l IH]; intros [|b0 k] [|i] Ha Hb;
    try discriminate.
  - injection Ha as ->. injection Hb as ->. done.
  - cbn in Ha, Hb |- *. by apply IH.
Qed.

Section ResultColumns.
Variables (h : heap) (df : ref) (fr : DataFrame) (xs ys : Series).
Hypothesis Hdf : h !! df = Some fr.
Hypothesis HX : fr !! "X" = Some xs.
Hypothesis HY : fr !! "Y" = Some ys.

Lemma twist_airfoil_ledge_columns (a : R) :
  result_column (twist_airfoil_ledge df a h) "X_twisted" =
    Some (col0 (dot (column_stack xs ys) (T (rotation_matrix (radians a))))) /\
  result_column (twist_airfoil_ledge df a h) "Y_twisted" =
    Some (col1 (dot (column_stack xs ys) (T (rotation_matrix (radians a))))).
Proof using Hdf HX HY.
  rewrite (twist_airfoil_ledge_run h df fr xs ys Hdf HX HY). cbn zeta.
  unfold result_column. rewrite lookup_insert_eq.
  rewrite lookup_insert_ne by done. by rewrite !lookup_insert_eq.
Qed.

Lemma scale_airfoil_columns (s : R) :
  result_column (scale_airfoil df s h) "X_scaled" =
    Some (Series_radd (mean xs) (Series_mul (Series_sub xs (mean xs)) (Fin s))) /\
  result_column (scale_airfoil df s h) "Y_scaled" =
    Some (Series_radd (mean ys) (Series_mul (Series_sub ys (mean ys)) (Fin s))).
Proof using Hdf HX HY.
  rewrite (scale_airfoil_run h df fr xs ys Hdf HX HY). cbn zeta.
  unfold result_column. rewrite lookup_insert_eq.
  rewrite lookup_insert_ne by done. by rewrite !lookup_insert_eq.
Qed.
End ResultColumns.

(** X14: the leading-edge twist does not reject missing cells; it passes
    them on row by row.  On any table whose cells are finite numbers or
    [NaN] (no infinity) and whose [X] and [Y] columns have values at row
    [i], both twisted cells of row [i] are [NaN] exactly when the [X] cell
    or the [Y] cell of that row is [NaN]. *)
Theorem twist_airfoil_ledge_NaN_rows :
  forall (h : heap) (df : ref) (fr : DataFrame) (xs ys : Series) (a : R)
         (i : nat) (x y : float64),
    h !! df = Some fr ->
    fr !! "X" = Some xs ->
    fr !! "Y" = Some ys ->
    xs !! i = Some x ->
    ys !! i = Some y ->
    exists (xt yt : Series) (u v : float64),
      result_column (twist_airfoil_ledge df a h) "X_twisted" = Some xt /\
      result_column (twist_airfoil_ledge df a h) "Y_twisted" = Some yt /\
      xt !! i = Some u /\
      yt !! i = Some v /\
      (u = NaN <-> x = NaN \/ y = NaN) /\
      (v = NaN <-> x = NaN \/ y = NaN).
Proof.
  intros h df fr xs ys a i x y Hdf HX HY Hx Hy.
  destruct (twist_airfoil_ledge_columns h df fr xs ys Hdf HX HY a) as [Hxt Hyt].
  eexists _, _, _, _. split; [exact Hxt |]. split; [exact Hyt |].
  pose proof (lookup_combine_Some xs ys i x y Hx Hy) as Hrow.
  unfold col0, col1, dot, T, rotation_matrix, column_stack.
  split; [| split; [| split]].
  - apply lookup_map_Some. apply lookup_map_Some. exact Hrow.
  - apply lookup_map_Some. apply lookup_map_Some. exact Hrow.
  - cbn [fst snd]. destruct x, y; cbn [fmul fadd]; nan_cases.
  - cbn [fst snd]. destruct x, y; cbn [fmul fadd]; nan_cases.
Qed.

Lemma twist_airfoil_ledge_NaN_rows_witness :
  exists (xt yt : Series) (u v : float64),
    result_column
      (twist_airfoil_ledge 1%positive 0
         {[1%positive := (<["X" := [NaN]]> {["Y" := [Fin 1]]} : DataFrame)]})
      "X_twisted" = Some xt /\
    result_column
      (twist_airfoil_ledge 1%positive 0
         {[1%positive := (<["X" := [NaN]]> {["Y" := [Fin 1]]} : DataFrame)]})
      "Y_twisted" = Some yt /\
    xt !! 0%nat = Some u /\
    yt !! 0%nat = Some v /\
    (u = NaN <-> NaN = NaN \/ Fin 1 = NaN) /\
    (v = NaN <-> NaN = NaN \/ Fin 1 = NaN).
Proof.
  apply (twist_airfoil_ledge_NaN_rows
           {[1%positive := (<["X" := [NaN]]> {["Y" := [Fin 1]]} : DataFrame)]}
           1%positive (<["X" := [NaN]]> {["Y" := [Fin 1]]}) [NaN] [Fin 1] 0 0%nat
           NaN (Fin 1)).
  - apply lookup_singleton_eq.
  - apply lookup_insert_eq.
  - rewrite lookup_insert_ne by done. apply lookup_singleton_eq.
  - reflexivity.
  - reflexivity.
Defined.

Lemma mean_NaN_iff (s : Series) : mean s = NaN <-> dropna s = [].
Proof.
  unfold mean. destruct (dropna s) as [|v vs]; split; try done.
Qed.

(** X15: the scaling takes the centroid over the cells that are present.
    On any table whose cells are finite numbers or [NaN] (no infinity), and
    as long as no sum or product leaves the binary64 range (the arithmetic
    here is exact), the scaled cell of row [i] is [NaN] exactly when the
    [X] cell of that row is [NaN] or the whole column holds no number; the
    same for [Y]. *)
Theorem scale_airfoil_NaN_rows :
  forall (h : heap) (df : ref) (fr : DataFrame) (xs ys : Series) (s : R)
         (i : nat) (x y : float64),
    h !! df = Some fr ->
    fr !! "X" = Some xs ->
    fr !! "Y" = Some ys ->
    xs !! i = Some x ->
    ys !! i = Some y ->
    exists (xt yt : Series) (u v : float64),
      result_column (scale_airfoil df s h) "X_scaled" = Some xt /\
      result_column (scale_airfoil df s h) "Y_scaled" = Some yt /\
      xt !! i = Some u /\
      yt !! i = Some v /\
      (u = NaN <-> x = NaN \/ dropna xs = []) /\
      (v = NaN <-> y = NaN \/ dropna ys = []).
Proof.
  intros h df fr xs ys s i x y Hdf HX HY Hx Hy.
  destruct (scale_airfoil_columns h df fr xs ys Hdf HX HY s) as [Hxt Hyt].
  eexists _, _, _, _. split; [exact Hxt |]. split; [exact Hyt |].
  unfold Series_radd, Series_mul, Series_sub.
  split; [| split; [| split]].
  - do 3 apply lookup_map_Some. exact Hx.
  - do 3 apply lookup_map_Some. exact Hy.
  - rewrite <- mean_NaN_iff. destruct x, (mean xs); cbn [fmul fadd fsub]; nan_cases.
  - rewrite <- mean_NaN_iff. destruct y, (mean ys); cbn [fmul fadd fsub]; nan_cases.
Qed.

Lemma scale_airfoil_NaN_rows_witness :
  exists (xt yt : Series) (u v : float64),
    result_column
      (scale_airfoil 1%positive 2
         {[1%positive := (<["X" := [NaN]]> {["Y" := [Fin 1]]} : DataFrame)]})
      "X_scaled" = Some xt /\
    result_column
      (scale_airfoil 1%positive 2
         {[1%positive := (<["X" := [NaN]]> {["Y" := [Fin 1]]} : DataFrame)]})
      "Y_scaled" = Some yt /\
    xt !! 0%nat = Some u /\
    yt !! 0%nat = Some v /\
    (u = NaN <-> NaN = NaN \/ dropna [NaN] = []) /\
    (v = NaN <-> Fin 1 = NaN \/ dropna [Fin 1] = []).
Proof.
  apply (scale_airfoil_NaN_rows
           {[1%positive := (<["X" := [NaN]]> {["Y" := [Fin 1]]} : DataFrame)]}
           1%positive (<["X" := [NaN]]> {["Y" := [Fin 1]]}) [NaN] [Fin 1] 2 0%nat
           NaN (Fin 1)).
  - apply lookup_singleton_eq.
  - apply lookup_insert_eq.
  - rewrite lookup_insert_ne by done. apply lookup_singleton_eq.
  - reflexivity.
  - reflexivity.
Defined.

(** X16: results do not pile up.  When a leading-edge twist by [a] has
    returned a table, a further twist by [b] of that returned table twists
    the original [X], [Y] columns again and replaces the twisted columns, so
    it gives what the twist by [b] of the input gives; and a scaling of the
    returned table gives the scaled columns of the input and keeps the
    twisted columns beside them. *)
Theorem transforms_of_a_result_use_original_columns :
  forall (h : heap) (df : ref) (fr : DataFrame) (xs ys : Series) (a b s : R)
         (r1 : ref) (h1 : heap) (c : string),
    h !! df = Some fr ->
    fr !! "X" = Some xs ->
    fr !! "Y" = Some ys ->
    twist_airfoil_ledge df a h = Return r1 h1 ->
    c = "X_twisted" \/ c = "Y_twisted" ->
    result_column (twist_airfoil_ledge r1 b h1) c =
      result_column (twist_airfoil_ledge df b h) c /\
    result_column (scale_airfoil r1 s h1) c =
      result_column (twist_airfoil_ledge df a h) c /\
    result_column (scale_airfoil r1 s h1) "X_scaled" =
      result_column (scale_airfoil df s h) "X_scaled" /\
    result_column (scale_airfoil r1 s h1) "Y_scaled" =
      result_column (scale_airfoil df s h) "Y_scaled".
Proof.
  intros h df fr xs ys a b s r1 h1 c Hdf HX HY Hrun Hc.
  pose proof (twist_airfoil_ledge_run h df fr xs ys Hdf HX HY a) as Hrun'.
  cbn zeta in Hrun'. rewrite Hrun' in Hrun. injection Hrun as <- <-.
  set (fr1 := <["Y_twisted" := _]> (<["X_twisted" := _]> fr)) in *.
  assert (Hdf1 : (<[fresh (dom h) := fr1]> h : heap) !! fresh (dom h) = Some fr1)
    by apply lookup_insert_eq.
  assert (HX1 : fr1 !! "X" = Some xs).
  { unfold fr1. by rewrite !lookup_insert_ne. }
  assert (HY1 : fr1 !! "Y" = Some ys).
  { unfold fr1. by rewrite !lookup_insert_ne. }
  destruct (twist_airfoil_ledge_columns _ _ _ _ _ Hdf1 HX1 HY1 b) as [Hb1 Hb2].
  destruct (twist_airfoil_ledge_columns _ _ _ _ _ Hdf HX HY b) as [Hb3 Hb4].
  destruct (scale_airfoil_columns _ _ _ _ _ Hdf1 HX1 HY1 s) as [Hs1 Hs2].
  destruct (scale_airfoil_columns _ _ _ _ _ Hdf HX HY s) as [Hs3 Hs4].
  split; [| split; [| split]].
  - destruct Hc as [-> | ->]; congruence.
  - pose proof (keeps_original_intro (<[fresh (dom h) := fr1]> h)
                  (fresh (dom (<[fresh (dom h) := fr1]> h))) fr1 "X_scaled" "Y_scaled"
                  (Series_radd (mean xs) (Series_mul (Series_sub xs (mean xs)) (Fin s)))
                  (Series_radd (mean ys) (Series_mul (Series_sub ys (mean ys)) (Fin s))))
      as Hkeep.
    rewrite (scale_airfoil_run _ _ _ _ _ Hdf1 HX1 HY1). cbn zeta.
    destruct Hkeep as (_ & _ & Hother & _); try done.
    rewrite Hrun'. rewrite (Hother c) by (destruct Hc as [-> | ->]; done).
    unfold result_column. by rewrite lookup_insert_eq.
  - congruence.
  - congruence.
Qed.

Lemma transforms_of_a_result_use_original_columns_witness :
  exists (r1 : ref) (h1 : heap),
    twist_airfoil_ledge 1%positive 90 {[1%positive := frame_of unit_square]} =
      Return r1 h1 /\
    result_column (twist_airfoil_ledge r1 30 h1) "X_twisted" =
      result_column
        (twist_airfoil_ledge 1%positive 30 {[1%positive := frame_of unit_square]})
        "X_twisted".
Proof.
  assert (H1 : ({[1%positive := frame_of unit_square]} : heap) !! 1%positive =
               Some (frame_of unit_square)) by apply lookup_singleton_eq.
  pose proof (twist_airfoil_ledge_frame _ _ _ H1 90) as Hrun.
  eexists _, _. split; [exact Hrun |].
  refine (proj1 (transforms_of_a_result_use_original_columns
                   _ _ _ _ _ 90 30 1 _ _ "X_twisted" H1
                   (frame_of_X unit_square) (frame_of_Y unit_square) Hrun _)).
  by left.
Defined.

(** ** plot.py: what is drawn *)

Lemma frame_of_columns (P : list point) :
  frame_of P !! "X" = Some (xcol (fun p => p) P) /\
  frame_of P !! "Y" = Some (ycol (fun p => p) P).
Proof. split; [apply frame_of_X | apply frame_of_Y]. Qed.

Lemma mean_frame_columns (P : list point) :
  mkPlot [mean (xcol (fun p => p) P)] [mean (ycol (fun p => p) P)] "ko" NoLabel =
  reference_marker false P.
Proof.
  destruct P as [|p P]; [done |].
  unfold reference_marker, xcol, ycol.
  by rewrite (mean_X (p :: P)), (mean_Y (p :: P)).
Qed.

Ltac table_lookups P :=
  destruct (frame_of_columns P) as [HfrX HfrY];
  repeat (rewrite ?lookup_total_insert_eq, ?lookup_insert_eq;
          rewrite ?lookup_insert_ne by done;
          rewrite ?HfrX, ?HfrY; cbn beta iota).

(** Each drawing of the table of a point set returns the expected axes and
    leaves the table as it was. *)
Lemma render_run (h : heap) (df : ref) (P : list point) (d : drawing) :
  h !! df = Some (frame_of P) ->
  exists h' : heap,
    render df d h = Return (drawn P d) h' /\
    h' !! df = Some (frame_of P).
Proof.
  intros Hdf. destruct d as [a | s | a]; unfold render, drawn, drawn_map.
  - eexists. split.
    + unfold plot_twisted_airfoil. py_simpl.
      rewrite (twist_airfoil_ledge_frame h df P Hdf a).
      table_lookups P. reflexivity.
    + by apply store_kept_by_copy.
  - eexists. split.
    + unfold plot_scale_airfoil. py_simpl.
      rewrite (scale_airfoil_frame h df P Hdf s).
      table_lookups P. reflexivity.
    + by apply store_kept_by_copy.
  - eexists. split.
    + unfold plot_twisted_airfoil. py_simpl.
      rewrite (twist_airfoil_centroid_frame h df P Hdf a).
      table_lookups P. rewrite mean_frame_columns. reflexivity.
    + by apply store_kept_by_copy.
Qed.

Lemma plot_rows_cols (g : point -> point) (P : list point) (f : string)
    (l : legend_label) :
  plot_rows (mkPlot (xcol g P) (ycol g P) f l) = map fin_point (map g P).
Proof. unfold plot_rows. cbn [plot_xs plot_ys]. apply combine_xcol_ycol. Qed.

Lemma plot_rows_original (P : list point) (f : string) (l : legend_label) :
  plot_rows (mkPlot (xcol (fun p => p) P) (ycol (fun p => p) P) f l) =
  map fin_point P.
Proof. rewrite plot_rows_cols. by rewrite map_id. Qed.

(** X17: on the table of a point set [plot_twisted_airfoil] draws three
    things: the input polyline, the dashed polyline of the twisted points,
    and one marker.  Which twist is drawn depends on [ledge] alone (the
    [centroid] argument plays no part); the marker is (0,0) for the
    leading-edge twist and the centroid for the centroid twist of a non-empty
    point set, and in both cases it is the point the drawn twist leaves in
    place.  The title names the leading edge in both cases. *)
Theorem plot_twisted_airfoil_draws :
  forall (h : heap) (df : ref) (P : list point) (a : R) (ledge centroid_arg : bool),
    h !! df = Some (frame_of P) ->
    ledge = true \/ P <> [] ->
    exists (h' : heap) (ax : axes) (original dashed marker : plot_call) (c : point),
      plot_twisted_airfoil df a ledge centroid_arg h = Return ax h' /\
      plots ax = [original; dashed; marker] /\
      plot_rows original = map fin_point P /\
      plot_rows dashed =
        map fin_point
          (map (if ledge then rotate (radians a)
                else rotate_about (centroid P) (radians a)) P) /\
      plot_rows marker = [fin_point c] /\
      c = (if ledge then (0, 0) else centroid P) /\
      (if ledge then rotate (radians a)
       else rotate_about (centroid P) (radians a)) c = c /\
      title ax = TwistedAboutLeadingEdge a.
Proof.
  intros h df P a ledge flag Hdf Hne. destruct ledge.
  - destruct (render_run h df P (TwistLedge a) Hdf) as (h' & Hrun & _).
    exists h', (drawn P (TwistLedge a)). eexists _, _, _, (0, 0).
    split; [exact Hrun |]. split; [reflexivity |].
    split; [apply plot_rows_original |]. split; [apply plot_rows_cols |].
    split; [reflexivity |]. split; [reflexivity |]. split; [| reflexivity].
    unfold rotate, mat_vec, rot. cbn [fst snd]. f_equal; ring.
  - destruct Hne as [Hl | HP]; [discriminate |].
    destruct (render_run h df P (TwistCentroid a) Hdf) as (h' & Hrun & _).
    exists h', (drawn P (TwistCentroid a)). eexists _, _, _, (centroid P).
    split; [exact Hrun |]. split; [reflexivity |].
    split; [apply plot_rows_original |]. split; [apply plot_rows_cols |].
    split; [| split; [reflexivity | split; [apply rotate_about_fix | reflexivity]]].
    destruct P as [|p P]; [done | reflexivity].
Qed.

Lemma plot_twisted_airfoil_draws_witness :
  ({[1%positive := frame_of unit_square]} : heap) !! 1%positive =
    Some (frame_of unit_square) /\
  (false = true \/ unit_square <> []) /\
  exists (h' : heap) (ax : axes),
    plot_twisted_airfoil 1%positive 45 false false
      {[1%positive := frame_of unit_square]} = Return ax h' /\
    title ax = TwistedAboutLeadingEdge 45.
Proof.
  assert (Hne : false = true \/ unit_square <> []) by (right; discriminate).
  split; [apply lookup_singleton_eq |]. split; [exact Hne |].
  destruct (plot_twisted_airfoil_draws
              {[1%positive := frame_of unit_square]} 1%positive unit_square 45
              false false (lookup_singleton_eq _ _) Hne)
    as (h' & ax & o & d & m & c & Hrun & _ & _ & _ & _ & _ & _ & Ht).
  exists h', ax. split; [exact Hrun | exact Ht].
Defined.

(** X18: on the table of a point set [plot_scale_airfoil] draws exactly two
    things, the input polyline and the dashed polyline of the scaled points;
    it draws no marker for the centroid. *)
Theorem plot_scale_airfoil_draws :
  forall (h : heap) (df : ref) (P : list point) (s : R),
    h !! df = Some (frame_of P) ->
    exists (h' : heap) (ax : axes) (original dashed : plot_call),
      plot_scale_airfoil df s h = Return ax h' /\
      plots ax = [original; dashed] /\
      plot_rows original = map fin_point P /\
      plot_rows dashed = map fin_point (map (scale_about (centroid P) s) P) /\
      title ax = ScaledByFactor s.
Proof.
  intros h df P s Hdf.
  destruct (render_run h df P (Scale s) Hdf) as (h' & Hrun & _).
  exists h', (drawn P (Scale s)). eexists _, _.
  split; [exact Hrun |]. split; [reflexivity |].
  split; [apply plot_rows_original |]. split; [apply plot_rows_cols | reflexivity].
Qed.

Lemma plot_scale_airfoil_draws_witness :
  ({[1%positive := frame_of unit_square]} : heap) !! 1%positive =
    Some (frame_of unit_square) /\
  exists (h' : heap) (ax : axes),
    plot_scale_airfoil 1%positive 2 {[1%positive := frame_of unit_square]} =
      Return ax h' /\
    length (plots ax) = 2%nat.
Proof.
  split; [apply lookup_singleton_eq |].
  destruct (plot_scale_airfoil_draws
              {[1%positive := frame_of unit_square]} 1%positive unit_square 2
              (lookup_singleton_eq _ _))
    as (h' & ax & o & d & Hrun & Hplots & _).
  exists h', ax. split; [exact Hrun | by rewrite Hplots].
Defined.

(** X19: with no point at all nothing fails: the centroid twist is drawn as
    two empty polylines and a marker at ([NaN], [NaN]), the scaling as two
    empty polylines. *)
Theorem plotting_empty_point_set :
  forall (h : heap) (df : ref) (a s : R) (centroid_arg : bool),
    h !! df = Some (frame_of []) ->
    (exists (h' : heap) (ax : axes),
        plot_twisted_airfoil df a false centroid_arg h = Return ax h' /\
        map plot_rows (plots ax) = [[]; []; [(NaN, NaN)]]) /\
    (exists (h' : heap) (ax : axes),
        plot_scale_airfoil df s h = Return ax h' /\
        map plot_rows (plots ax) = [[]; []]).
Proof.
  intros h df a s flag Hdf. split.
  - destruct (render_run h df [] (TwistCentroid a) Hdf) as (h' & Hrun & _).
    exists h', (drawn [] (TwistCentroid a)). split; [exact Hrun | reflexivity].
  - destruct (render_run h df [] (Scale s) Hdf) as (h' & Hrun & _).
    exists h', (drawn [] (Scale s)). split; [exact Hrun | reflexivity].
Qed.

Lemma plotting_empty_point_set_witness :
  ({[1%positive := frame_of []]} : heap) !! 1%positive = Some (frame_of []) /\
  exists (h' : heap) (ax : axes),
    plot_scale_airfoil 1%positive 2 {[1%positive := frame_of []]} = Return ax h' /\
    map plot_rows (plots ax) = [[]; []].
Proof.
  split; [apply lookup_singleton_eq |].
  exact (proj2 (plotting_empty_point_set
                  {[1%positive := frame_of []]} 1%positive 0 2 false
                  (lookup_singleton_eq _ _))).
Defined.

(** ** plot.py: one drawing after another *)

(** X20: a drawing leaves the controller's table as it was, so the drawing
    that comes next gives the same axes as it would have given without the
    first: a transform is always applied to the original points, never to
    the result of an earlier one. *)
Theorem drawing_does_not_depend_on_previous :
  forall (h : heap) (df : ref) (P : list point) (d1 d2 : drawing)
         (ax1 : axes) (h1 : heap),
    h !! df = Some (frame_of P) ->
    render df d1 h = Return ax1 h1 ->
    h1 !! df = Some (frame_of P) /\
    exists (ax : axes) (h2 h2' : heap),
      render df d2 h1 = Return ax h2 /\
      render df d2 h = Return ax h2'.
Proof.
  intros h df P d1 d2 ax1 h1 Hdf Hrun1.
  destruct (render_run h df P d1 Hdf) as (h1' & Hrun1' & Hdf1).
  rewrite Hrun1' in Hrun1. injection Hrun1 as _ <-.
  split; [exact Hdf1 |].
  destruct (render_run h1' df P d2 Hdf1) as (h2 & Hrun2 & _).
  destruct (render_run h df P d2 Hdf) as (h2' & Hrun2' & _).
  exists (drawn P d2), h2, h2'. split; [exact Hrun2 | exact Hrun2'].
Qed.

Lemma drawing_does_not_depend_on_previous_witness :
  ({[1%positive := frame_of unit_square]} : heap) !! 1%positive =
    Some (frame_of unit_square) /\
  exists (ax1 : axes) (h1 : heap),
    render 1%positive (Scale 2) {[1%positive := frame_of unit_square]} =
      Return ax1 h1 /\
    h1 !! 1%positive = Some (frame_of unit_square).
Proof.
  assert (H1 : ({[1%positive := frame_of unit_square]} : heap) !! 1%positive =
               Some (frame_of unit_square)) by apply lookup_singleton_eq.
  split; [exact H1 |].
  destruct (render_run _ _ _ (Scale 2) H1) as (h1 & Hrun & _).
  exists (drawn unit_square (Scale 2)), h1. split; [exact Hrun |].
  exact (proj1 (drawing_does_not_depend_on_previous
                  _ _ _ (Scale 2) (TwistLedge 30) _ _ H1 Hrun)).
Defined.

(** ** plot.py: the mode selection *)

Lemma update_plot_cases (self : Plotting) (task : string) :
  (task = "Task 1: Twist by Leading Edge" /\
   update_plot self task =
     ({| task_list := task_list self;
         angle_slider := set_active true (set_visible true (angle_slider self));
         scale_slider := set_active false (set_visible false (scale_slider self)) |},
      TwistLedge (val (angle_slider self)))) \/
  (task = "Task 2: Scale" /\
   update_plot self task =
     ({| task_list := task_list self;
         angle_slider := set_active false (set_visible false (angle_slider self));
         scale_slider := set_active true (set_visible true (scale_slider self)) |},
      Scale (val (scale_slider self)))) \/
  (task <> "Task 1: Twist by Leading Edge" /\ task <> "Task 2: Scale" /\
   update_plot self task =
     ({| task_list := task_list self;
         angle_slider := set_active true (set_visible true (angle_slider self));
         scale_slider := set_active false (set_visible false (scale_slider self)) |},
      TwistCentroid (val (angle_slider self)))).
Proof.
  unfold update_plot.
  destruct (String.eqb task "Task 1: Twist by Leading Edge") eqn:E1.
  - left. apply String.eqb_eq in E1. by split.
  - apply String.eqb_neq in E1.
    destruct (String.eqb task "Task 2: Scale") eqn:E2.
    + right; left. apply String.eqb_eq in E2. by split.
    + right; right. apply String.eqb_neq in E2. by split.
Qed.

(** X21: after [update_plot] exactly one slider is active, and it is the one
    whose value is drawn: the scale slider is active exactly for the task
    "Task 2: Scale", the angle slider for every other task; each slider is
    shown exactly when it is active. *)
Theorem update_plot_masks_sliders :
  forall (self : Plotting) (task : string),
    (active (scale_slider (fst (update_plot self task))) = true <->
     task = "Task 2: Scale") /\
    active (angle_slider (fst (update_plot self task))) =
      negb (active (scale_slider (fst (update_plot self task)))) /\
    visible (angle_slider (fst (update_plot self task))) =
      active (angle_slider (fst (update_plot self task))) /\
    visible (scale_slider (fst (update_plot self task))) =
      active (scale_slider (fst (update_plot self task))) /\
    match snd (update_plot self task) with
    | Scale s =>
        active (scale_slider (fst (update_plot self task))) = true /\
        s = val (scale_slider self)
    | TwistLedge a | TwistCentroid a =>
        active (angle_slider (fst (update_plot self task))) = true /\
        a = val (angle_slider self)
    end.
Proof.
  intros self task.
  destruct (update_plot_cases self task)
    as [[Ht ->] | [[Ht ->] | (Ht1 & Ht2 & ->)]];
    cbn [fst snd angle_slider scale_slider set_active set_visible active visible].
  - subst task. split; [split; [discriminate | discriminate] | done].
  - subst task. split; [split; done | done].
  - split; [split; [discriminate | done] | done].
Qed.

(** X22: a task name that is neither "Task 1: Twist by Leading Edge" nor
    "Task 2: Scale" is not refused: [update_plot] treats it as the twist
    about the centroid, with the value of the angle slider. *)
Theorem update_plot_unknown_task_is_centroid_twist :
  forall (self : Plotting) (task : string),
    task <> "Task 1: Twist by Leading Edge" ->
    task <> "Task 2: Scale" ->
    update_plot self task = update_plot self "Task 3: Twist by Centroid" /\
    snd (update_plot self task) = TwistCentroid (val (angle_slider self)).
Proof.
  intros self task H1 H2.
  destruct (update_plot_cases self task)
    as [[Ht _] | [[Ht _] | (_ & _ & ->)]]; [done | done |].
  split; reflexivity.
Qed.

Lemma update_plot_unknown_task_is_centroid_twist_witness :
  "no such task" <> "Task 1: Twist by Leading Edge" /\
  "no such task" <> "Task 2: Scale" /\
  snd (update_plot
         {| task_list := main_task_list;
            angle_slider := Slider_init (-180) 180 0;
            scale_slider := Slider_init 0.1 2.0 0 |} "no such task") =
    TwistCentroid (val (Slider_init (-180) 180 0)).
Proof.
  assert (H1 : "no such task" <> "Task 1: Twist by Leading Edge") by discriminate.
  assert (H2 : "no such task" <> "Task 2: Scale") by discriminate.
  split; [exact H1 |]. split; [exact H2 |].
  exact (proj2 (update_plot_unknown_task_is_centroid_twist
                  {| task_list := main_task_list;
                     angle_slider := Slider_init (-180) 180 0;
                     scale_slider := Slider_init 0.1 2.0 0 |}
                  "no such task" H1 H2)).
Defined.

Lemma update_plot_keeps_parameters (self : Plotting) (task : string) :
  task_list (fst (update_plot self task)) = task_list self /\
  val (angle_slider (fst (update_plot self task))) = val (angle_slider self) /\
  valmin (angle_slider (fst (update_plot self task))) = valmin (angle_slider self) /\
  valmax (angle_slider (fst (update_plot self task))) = valmax (angle_slider self) /\
  val (scale_slider (fst (update_plot self task))) = val (scale_slider self) /\
  valmin (scale_slider (fst (update_plot self task))) = valmin (scale_slider self) /\
  valmax (scale_slider (fst (update_plot self task))) = valmax (scale_slider self).
Proof.
  destruct (update_plot_cases self task)
    as [[_ ->] | [[_ ->] | (_ & _ & ->)]]; done.
Qed.

(** X23: selecting modes never touches the parameters: through any run of
    [update_plot] calls the task list and the value and range of both
    sliders stay what they were, so the parameter of the mode that is not
    shown is kept for later. *)
Theorem select_tasks_keeps_parameters :
  forall (tasks : list string) (self : Plotting),
    task_list (select_tasks self tasks) = task_list self /\
    val (angle_slider (select_tasks self tasks)) = val (angle_slider self) /\
    valmin (angle_slider (select_tasks self tasks)) = valmin (angle_slider self) /\
    valmax (angle_slider (select_tasks self tasks)) = valmax (angle_slider self) /\
    val (scale_slider (select_tasks self tasks)) = val (scale_slider self) /\
    valmin (scale_slider (select_tasks self tasks)) = valmin (scale_slider self) /\
    valmax (scale_slider (select_tasks self tasks)) = valmax (scale_slider self).
Proof.
  induction tasks as [|task tasks IH]; intros self; [done |].
  cbn [select_tasks].
  destruct (IH (fst (update_plot self task))) as (I1 & I2 & I3 & I4 & I5 & I6 & I7).
  destruct (update_plot_keeps_parameters self task)
    as (U1 & U2 & U3 & U4 & U5 & U6 & U7).
  rewrite I1, I2, I3, I4, I5, I6, I7. done.
Qed.

(** X24: [update_plot] is idempotent: selecting the task that is already
    shown changes nothing and draws the same thing. *)
Theorem update_plot_idempotent :
  forall (self : Plotting) (task : string),
    update_plot (fst (update_plot self task)) task = update_plot self task.
Proof.
  intros self task.
  destruct (update_plot_cases self task)
    as [[Ht Hup] | [[Ht Hup] | (Ht1 & Ht2 & Hup)]]; rewrite Hup; cbn [fst].
  - destruct (update_plot_cases
                {| task_list := task_list self;
                   angle_slider := set_active true (set_visible true (angle_slider self));
                   scale_slider := set_active false (set_visible false (scale_slider self)) |}
                task) as [[_ ->] | [[Ht' _] | (Ht' & _ & _)]];
      [reflexivity | subst task; discriminate | done].
  - destruct (update_plot_cases
                {| task_list := task_list self;
                   angle_slider := set_active false (set_visible false (angle_slider self));
                   scale_slider := set_active true (set_visible true (scale_slider self)) |}
                task) as [[Ht' _] | [[_ ->] | (_ & Ht' & _)]];
      [subst task; discriminate | reflexivity | done].
  - destruct (update_plot_cases
                {| task_list := task_list self;
                   angle_slider := set_active true (set_visible true (angle_slider self));
                   scale_slider := set_active false (set_visible false (scale_slider self)) |}
                task) as [[Ht' _] | [[Ht' _] | (_ & _ & ->)]];
      [done | done | reflexivity].
Qed.

(** ** plot.py: the first drawing *)

(** X25: the picture at start-up.  When the first task of the list is
    "Task 1: Twist by Leading Edge", as in [main.py], [Plotting.__init__]
    draws the leading-edge twist with the angle slider at its initial value
    0, so the dashed polyline lies exactly on the input polyline. *)
Theorem first_drawing_is_untwisted :
  forall (rest : list string) (self : Plotting) (d : drawing)
         (h : heap) (df : ref) (P : list point),
    Plotting_init ("Task 1: Twist by Leading Edge" :: rest) = Some (self, d) ->
    h !! df = Some (frame_of P) ->
    d = TwistLedge 0 /\
    exists (ax : axes) (h' : heap) (original dashed marker : plot_call),
      render df d h = Return ax h' /\
      plots ax = [original; dashed; marker] /\
      plot_rows original = map fin_point P /\
      plot_rows dashed = map fin_point P.
Proof.
  intros rest self d h df P Hinit Hdf.
  unfold Plotting_init in Hinit. injection Hinit as _ Hd.
  assert (Hrot : map (rotate (radians 0)) P = P).
  { rewrite radians_0. apply map_id_ext. apply rotate_0. }
  rewrite value_in_bounds_angle in Hd. subst d. split; [reflexivity |].
  destruct (render_run h df P (TwistLedge 0) Hdf) as (h' & Hrun & _).
  exists (drawn P (TwistLedge 0)), h'. eexists _, _, _.
  split; [exact Hrun |]. split; [reflexivity |].
  split; [apply plot_rows_original |].
  rewrite plot_rows_cols. cbn [drawn_map]. by rewrite Hrot.
Qed.

Lemma first_drawing_is_untwisted_witness :
  exists (self : Plotting) (d : drawing),
    Plotting_init main_task_list = Some (self, d) /\
    ({[1%positive := frame_of unit_square]} : heap) !! 1%positive =
      Some (frame_of unit_square) /\
    d = TwistLedge 0.
Proof.
  assert (Hinit : Plotting_init main_task_list =
    Some (fst (update_plot
                 {| task_list := main_task_list;
                    angle_slider := set_active true (Slider_init (-180) 180 0);
                    scale_slider := set_active false (Slider_init 0.1 2.0 0) |}
                 "Task 1: Twist by Leading Edge"),
          TwistLedge (value_in_bounds (-180) 180 0))) by reflexivity.
  assert (H1 : ({[1%positive := frame_of unit_square]} : heap) !! 1%positive =
               Some (frame_of unit_square)) by apply lookup_singleton_eq.
  eexists _, _. split; [exact Hinit |]. split; [exact H1 |].
  exact (proj1 (first_drawing_is_untwisted _ _ _ _ _ _ Hinit H1)).
Defined.

(** ** A twist about the centroid and back, on two points *)

Lemma twist_centroid_symmetric_pair (h : heap) (df : ref) :
  h !! df = Some (frame_of [(1, 0); (-1, 0)]) ->
  result_points (twist_airfoil_centroid df 90 h) "X_twisted" "Y_twisted" =
    Some (map fin_point [(0, 1); (0, -1)]).
Proof.
  intros Hdf. rewrite (twist_airfoil_centroid_points h df _ Hdf).
  rewrite centroid_symmetric_pair, radians_90. unfold rotate_about. cbn [map].
  rewrite !rotate_quarter. unfold quarter_turn_anticlockwise, fin_point.
  cbn [fst snd]. repeat f_equal; ring.
Qed.

Lemma twist_airfoil_centroid_opposite_angle_witness :
  ({[1%positive := frame_of [(1, 0); (-1, 0)]]} : heap) !! 1%positive =
    Some (frame_of [(1, 0); (-1, 0)]) /\
  result_points
    (twist_airfoil_centroid 1%positive 90 {[1%positive := frame_of [(1, 0); (-1, 0)]]})
    "X_twisted" "Y_twisted" = Some (map fin_point [(0, 1); (0, -1)]) /\
  ({[2%positive := frame_of [(0, 1); (0, -1)]]} : heap) !! 2%positive =
    Some (frame_of [(0, 1); (0, -1)]) /\
  result_points
    (twist_airfoil_centroid 2%positive (- 90)
       {[2%positive := frame_of [(0, 1); (0, -1)]]})
    "X_twisted" "Y_twisted" = Some (map fin_point [(1, 0); (-1, 0)]).
Proof.
  assert (H1 : ({[1%positive := frame_of [(1, 0); (-1, 0)]]} : heap) !! 1%positive =
               Some (frame_of [(1, 0); (-1, 0)])) by apply lookup_singleton_eq.
  assert (H2 : ({[2%positive := frame_of [(0, 1); (0, -1)]]} : heap) !! 2%positive =
               Some (frame_of [(0, 1); (0, -1)])) by apply lookup_singleton_eq.
  pose proof (twist_centroid_symmetric_pair _ _ H1) as Hrun.
  split; [exact H1 |]. split; [exact Hrun |]. split; [exact H2 |].
  exact (twist_airfoil_centroid_opposite_angle _ _ _ _ _ _ _ H1 Hrun H2).
Defined.

(** ** Rounding: [scale_airfoil] in binary64

    Python reads a literal such as 0.1 as the nearest binary64 number, and
    so do the literals below. *)

Set Warnings "-inexact-float".


(** C6, the claim refuted: in binary64, scaling does not keep the centroid
    to the last bit.  For X = [0.1, 0.2] and factor 2 the mean of X is
    0.15000000000000002 and the mean of X_scaled is 0.15. *)
Lemma scale_airfoil_moves_centroid_in_last_bits :
  PrimFloat.eqb
    (Binary64.mean (fst (Binary64.scale_airfoil [0.1%float; 0.2%float]
                           [0%float; 0%float] 2%float)))
    (Binary64.mean [0.1%float; 0.2%float]) = false /\
  PrimFloat.eqb (Binary64.mean [0.1%float; 0.2%float]) 0.15000000000000002%float = true /\
  PrimFloat.eqb
    (Binary64.mean (fst (Binary64.scale_airfoil [0.1%float; 0.2%float]
                           [0%float; 0%float] 2%float)))
    0.15%float = true.
Proof. split; [| split]; vm_compute; reflexivity. Qed.
